(** * jsonnet-language-server: the semantic-analysis layer, embedded in Rocq

    The Go sources are embedded package by package, one [Module] per Go
    package.  Go [int] values are modelled as [Z] (64-bit wrap-around is
    written out where arithmetic happens), Go strings as byte strings
    ([string], one [ascii] per byte), maps with pointer keys as [gmap]s
    keyed by addresses, and maps that the code iterates over as association
    lists holding the entries in the order the Go runtime hands them out. *)

From Stdlib Require Import ZArith String Ascii List Bool Lia.
From stdpp Require Import base gmap strings list.

Local Open Scope string_scope.
Local Open Scope Z_scope.

Set Warnings "-register-all".

(** ** The syntax tree (package ast of the go-jsonnet fork) *)

Module ast.

Definition Identifier := string.

(** ast.Location and ast.LocationRange: 1-indexed line and column. *)
Record Location := mkLocation { Line : Z; Column : Z }.

Record LocationRange := mkLocationRange {
  FileName : string; Begin : Location; End : Location
}.

(** Modelled from the spec: the [ast] package of the go-jsonnet fork is not
    part of the sources.  The node kinds are the ones of the spec's
    SyntaxNode (section 3) that the embedded functions switch on; the
    fields are the ones those functions read.  [Nil] is the nil interface
    value.  A desugared object carries its address [ptr], because the
    object mapper keys its index by object pointer. *)
Inductive Node :=
| Nil
| Apply (loc : option LocationRange) (target : Node) (arguments : list Node)
| Array (loc : option LocationRange) (elements : list Node)
| Binary (loc : option LocationRange) (left right : Node)
| DesugaredObject (o : DesugaredObjectT)
| Function (f : FunctionT)
| Import (loc : option LocationRange) (file : string)
| ImportStr (loc : option LocationRange) (file : string)
| Index (loc : option LocationRange) (target index : Node)
| LiteralBoolean (loc : option LocationRange) (value : bool)
| LiteralNull (loc : option LocationRange)
| LiteralNumber (loc : option LocationRange) (originalString : string)
| LiteralString (loc : option LocationRange) (value : string)
| Local (loc : option LocationRange) (binds : list LocalBind) (body : Node)
| Self (loc : option LocationRange)
| Var (loc : option LocationRange) (id : Identifier)
| Partial (loc : option LocationRange)
| PartialIndex (loc : option LocationRange) (target : Node)
with DesugaredObjectT :=
| mkDesugaredObject (ptr : positive) (loc : option LocationRange)
    (fields : list DesugaredObjectField)
    (fieldLocs : list (FieldKey * LocationRange))
with DesugaredObjectField :=
| mkDesugaredObjectField (name body : Node)
with FieldKey :=
| KeyString (s : string)
| KeyIdentifier (id : Identifier)
| KeyNode (n : Node)
with FunctionT :=
| mkFunction (loc : option LocationRange)
    (required : list Identifier)
    (requiredLocs : list (Identifier * LocationRange))
    (optional : list NamedParameter)
    (body : Node)
with NamedParameter :=
| mkNamedParameter (name : Identifier) (defaultArg : Node) (loc : LocationRange)
with LocalBind :=
| mkLocalBind (varLoc : LocationRange) (variable : Identifier) (body : Node).

Definition Ptr (o : DesugaredObjectT) : positive :=
  let 'mkDesugaredObject p _ _ _ := o in p.
Definition ObjLoc (o : DesugaredObjectT) : option LocationRange :=
  let 'mkDesugaredObject _ l _ _ := o in l.
Definition Fields (o : DesugaredObjectT) : list DesugaredObjectField :=
  let 'mkDesugaredObject _ _ fs _ := o in fs.
Definition FieldLocs (o : DesugaredObjectT) : list (FieldKey * LocationRange) :=
  let 'mkDesugaredObject _ _ _ fl := o in fl.

Definition Name (f : DesugaredObjectField) : Node :=
  let 'mkDesugaredObjectField n _ := f in n.
Definition Body (f : DesugaredObjectField) : Node :=
  let 'mkDesugaredObjectField _ b := f in b.

Definition FunLoc (f : FunctionT) : option LocationRange :=
  let 'mkFunction l _ _ _ _ := f in l.
Definition Required (f : FunctionT) : list Identifier :=
  let 'mkFunction _ r _ _ _ := f in r.
Definition RequiredLocs (f : FunctionT) : list (Identifier * LocationRange) :=
  let 'mkFunction _ _ rl _ _ := f in rl.
Definition Optional (f : FunctionT) : list NamedParameter :=
  let 'mkFunction _ _ _ o _ := f in o.
Definition FunBody (f : FunctionT) : Node :=
  let 'mkFunction _ _ _ _ b := f in b.

Definition ParamName (p : NamedParameter) : Identifier :=
  let 'mkNamedParameter n _ _ := p in n.
Definition ParamLoc (p : NamedParameter) : LocationRange :=
  let 'mkNamedParameter _ _ l := p in l.

Definition VarLoc (b : LocalBind) : LocationRange :=
  let 'mkLocalBind l _ _ := b in l.
Definition BindVariable (b : LocalBind) : Identifier :=
  let 'mkLocalBind _ v _ := b in v.

(** [n.Loc()]: the range stored in the node base, [None] for a nil range. *)
Definition Loc (n : Node) : option LocationRange :=
  match n with
  | Nil => None
  | Apply l _ _ | Array l _ | Binary l _ _ | Import l _ | ImportStr l _
  | Index l _ _ | LiteralBoolean l _ | LiteralNull l | LiteralNumber l _
  | LiteralString l _ | Local l _ _ | Self l | Var l _ | Partial l
  | PartialIndex l _ => l
  | DesugaredObject o => ObjLoc o
  | Function f => FunLoc f
  end.

(** What [%T] prints for a node. *)
Definition TypeName (n : Node) : string :=
  match n with
  | Nil => "<nil>"
  | Apply _ _ _ => "*ast.Apply"
  | Array _ _ => "*ast.Array"
  | Binary _ _ _ => "*ast.Binary"
  | DesugaredObject _ => "*ast.DesugaredObject"
  | Function _ => "*ast.Function"
  | Import _ _ => "*ast.Import"
  | ImportStr _ _ => "*ast.ImportStr"
  | Index _ _ _ => "*ast.Index"
  | LiteralBoolean _ _ => "*ast.LiteralBoolean"
  | LiteralNull _ => "*ast.LiteralNull"
  | LiteralNumber _ _ => "*ast.LiteralNumber"
  | LiteralString _ _ => "*ast.LiteralString"
  | Local _ _ _ => "*ast.Local"
  | Self _ => "*ast.Self"
  | Var _ _ => "*ast.Var"
  | Partial _ => "*astext.Partial"
  | PartialIndex _ _ => "*astext.PartialIndex"
  end.

End ast.

(** ** pkg/util/position *)

Module jpos.

Record Position := New { line : Z; column : Z }.

Record Range := NewRange { Start : Position; End : Position }.

Record Location := NewLocation { uri : string; range : Range }.

Definition NewRangeFromCoords (l1 c1 l2 c2 : Z) : Range :=
  NewRange (New l1 c1) (New l2 c2).

Definition zeroRange : Range := NewRangeFromCoords 0 0 0 0.
Definition zeroLocation : Location := NewLocation "" zeroRange.

(** Modelled from the spec: the position package is not part of the
    sources.  Positions and jsonnet ranges use the same 1-indexed
    convention (spec section 3), so the conversions copy the coordinates;
    the object-mapper test fixes [LocationFromJsonnet] on one input. *)
Definition FromJsonnetLocation (l : ast.Location) : Position :=
  New (ast.Line l) (ast.Column l).

Definition FromJsonnetRange (r : ast.LocationRange) : Range :=
  NewRange (FromJsonnetLocation (ast.Begin r)) (FromJsonnetLocation (ast.End r)).

Definition LocationFromJsonnet (r : ast.LocationRange) : Location :=
  NewLocation (ast.FileName r) (FromJsonnetRange r).

(** Modelled from the spec: [pos.IsInJsonnetRange(r)] holds when [r]
    contains [pos] (spec section 4.3), both ends included, comparing
    line first and column second. *)
Definition leb_pos (l1 c1 l2 c2 : Z) : bool :=
  (l1 <? l2) || ((l1 =? l2) && (c1 <=? c2)).

Definition IsInJsonnetRange (pos : Position) (r : ast.LocationRange) : bool :=
  leb_pos (ast.Line (ast.Begin r)) (ast.Column (ast.Begin r)) (line pos) (column pos)
  && leb_pos (line pos) (column pos) (ast.Line (ast.End r)) (ast.Column (ast.End r)).

End jpos.

(** ** Errors and outcomes *)

(** An [errors.Errorf] call is kept unrendered: the format string and the
    rendered-by-verb arguments.  [errors.New msg] is [Errorf msg []]. *)
Inductive fmt_arg :=
| ArgS (s : string)          (* %s of a string *)
| ArgT (tyname : string)     (* %T *)
| ArgQ (s : string)          (* %q *)
| ArgPos (p : jpos.Position) (* %s of pos.String() *).

Inductive error :=
| Errorf (format : string) (args : list fmt_arg)
| ErrUnresolvable            (* the sentinel locate.ErrUnresolvable *).

Definition errors_New (msg : string) : error := Errorf msg [].

Inductive outcome (A : Type) :=
| Return (a : A)
| Fail (e : error)
| Panic (msg : string).
Arguments Return {A} a.
Arguments Fail {A} e.
Arguments Panic {A} msg.

Definition is_panic {A} (r : outcome A) : bool :=
  match r with Panic _ => true | _ => false end.

Definition is_fail {A} (r : outcome A) : bool :=
  match r with Fail _ => true | _ => false end.

(** ** pkg/analysis/lexical/token: object.go *)

Module token.

(** objectKey{object, field}: the object is compared by pointer. *)
Definition objectKey : Type := positive * string.

(** objectMapper.m; a nil map and an empty map read alike. *)
Definition objectMapper : Type := gmap (positive * string) ast.LocationRange.

(** [o.FieldLocs[name]] for a string [name]. *)
Fixpoint FieldLocs_get (fl : list (ast.FieldKey * ast.LocationRange)) (name : string)
  : option ast.LocationRange :=
  match fl with
  | [] => None
  | (ast.KeyString k, loc) :: rest =>
      if String.eqb k name then Some loc else FieldLocs_get rest name
  | _ :: rest => FieldLocs_get rest name
  end.

Definition add (om : objectMapper) (o : ast.DesugaredObjectT) (name : string)
  : objectMapper * option error :=
  match FieldLocs_get (ast.FieldLocs o) name with
  | None => (om, Some (Errorf "could not find location for field %s" [ArgS name]))
  | Some loc => (<[(ast.Ptr o, name) := loc]> om, None)
  end.

Definition fieldName (field : ast.DesugaredObjectField) : outcome string :=
  match ast.Name field with
  | ast.LiteralString _ v => Return v
  | _ => Fail (errors_New "field name is not a string")
  end.

Fixpoint fieldByName_loop (fields : list ast.DesugaredObjectField) (name : string)
  : outcome ast.DesugaredObjectField :=
  match fields with
  | [] => Fail (Errorf "field %s does not exist" [ArgS name])
  | field :: rest =>
      match fieldName field with
      | Return fn =>
          if String.eqb fn name then Return field else fieldByName_loop rest name
      | Fail e => Fail e
      | Panic m => Panic m
      end
  end.

Definition fieldByName (o : ast.DesugaredObjectT) (name : string)
  : outcome ast.DesugaredObjectField :=
  fieldByName_loop (ast.Fields o) name.

(** objectMapper.lookup.  [path[0]] on an empty slice is a run-time panic. *)
Fixpoint lookup (om : objectMapper) (o : ast.DesugaredObjectT) (path : list string)
  : outcome jpos.Location :=
  match path with
  | [] => Panic "runtime error: index out of range [0] with length 0"
  | name :: path =>
      match om !! (ast.Ptr o, name) with
      | None => Fail (Errorf "field %s does not exist in object" [ArgS name])
      | Some lr =>
          match path with
          | [] => Return (jpos.LocationFromJsonnet lr)
          | _ :: _ =>
              match fieldByName o name with
              | Panic m => Panic m
              | Fail e => Fail e
              | Return nested =>
                  match ast.Body nested with
                  | ast.Local _ _ localBody =>
                      match localBody with
                      | ast.DesugaredObject nestedObject =>
                          lookup om nestedObject path
                      | _ => Fail (Errorf "expected body to be an object; it was %T"
                                     [ArgT (ast.TypeName localBody)])
                      end
                  | _ => Fail (Errorf "field %s doesn't have local scope" [ArgS name])
                  end
              end
          end
      end
  end.

(** What [%T] prints for a key of the FieldLocs map. *)
Definition KeyTypeName (k : ast.FieldKey) : string :=
  match k with
  | ast.KeyString _ => "string"
  | ast.KeyIdentifier _ => "ast.Identifier"
  | ast.KeyNode n => ast.TypeName n
  end.

(** fieldNameAt ranges over the FieldLocs map; the list holds the entries in
    the order of that iteration.  The three Go results are kept as they are
    returned: name, range, error. *)
Fixpoint fieldNameAt_loop (fl : list (ast.FieldKey * ast.LocationRange))
    (pos : jpos.Position) : string * jpos.Range * option error :=
  match fl with
  | [] => ("", jpos.zeroRange,
           Some (Errorf "position %s isn't in an object key" [ArgPos pos]))
  | (k, loc) :: rest =>
      if jpos.IsInJsonnetRange pos loc then
        match k with
        | ast.KeyString k => (k, jpos.FromJsonnetRange loc, None)
        | ast.KeyNode (ast.Var _ _) =>
            ("", jpos.zeroRange, Some (errors_New "variable keys are unsupported"))
        | _ => ("", jpos.zeroRange,
                Some (Errorf "invalid field name type %T" [ArgT (KeyTypeName k)]))
        end
      else fieldNameAt_loop rest pos
  end.

Definition fieldNameAt (o : ast.DesugaredObjectT) (pos : jpos.Position)
  : string * jpos.Range * option error :=
  fieldNameAt_loop (ast.FieldLocs o) pos.

Fixpoint fieldNameLoc_loop (fl : list (ast.FieldKey * ast.LocationRange))
    (name : string) : outcome jpos.Range :=
  match fl with
  | [] => Fail (Errorf "field %q was not found" [ArgQ name])
  | (ast.KeyString k, loc) :: rest =>
      if String.eqb name k then Return (jpos.FromJsonnetRange loc)
      else fieldNameLoc_loop rest name
  | _ :: rest => fieldNameLoc_loop rest name
  end.

Definition fieldNameLoc (o : ast.DesugaredObjectT) (name : string)
  : outcome jpos.Range :=
  fieldNameLoc_loop (ast.FieldLocs o) name.

Definition findFieldFunction (field : ast.DesugaredObjectField)
  : option ast.FunctionT :=
  match ast.Body field with
  | ast.Local _ _ (ast.Function fn) => Some fn
  | _ => None
  end.

(** *** The scope at a position *)











(** *** highlight.go *)

Section idNode.

(** [s.parent] and the package's [resolveIndex] on an index node live in
    files that are not part of the sources; they are parameters. *)
Variable parent : ast.DesugaredObjectT -> ast.Node.
Variable resolveIndex : ast.Node -> list string.

(** The loop over Parameters.RequiredLocs: the first entry (in iteration
    order) that contains [pos] sets the identifier and breaks. *)
Fixpoint requiredAt (rl : list (ast.Identifier * ast.LocationRange))
    (pos : jpos.Position) (id : ast.Identifier) : ast.Identifier :=
  match rl with
  | [] => id
  | (paramID, loc) :: rest =>
      if jpos.IsInJsonnetRange pos loc then paramID else requiredAt rest pos id
  end.

Fixpoint optionalAt (ps : list ast.NamedParameter)
    (pos : jpos.Position) (id : ast.Identifier) : ast.Identifier :=
  match ps with
  | [] => id
  | param :: rest =>
      if jpos.IsInJsonnetRange pos (ast.ParamLoc param) then ast.ParamName param
      else optionalAt rest pos id
  end.

(** The loop over the binds has no break: the last match wins. *)
Fixpoint bindAt (binds : list ast.LocalBind)
    (pos : jpos.Position) (id : ast.Identifier) : ast.Identifier :=
  match binds with
  | [] => id
  | bind :: rest =>
      bindAt rest pos
        (if jpos.IsInJsonnetRange pos (ast.VarLoc bind)
         then ast.BindVariable bind else id)
  end.

(** idNode recurses through [s.parent], which need not make the node
    smaller: [fuel] bounds the number of calls, [None] is fuel exhausted. *)
Fixpoint idNode (fuel : nat) (node : ast.Node) (pos : jpos.Position)
  : option (outcome (ast.Identifier * list string)) :=
  match fuel with
  | O => None
  | S fuel =>
      match node with
      | ast.DesugaredObject found => idNode fuel (parent found) pos
      | ast.Function found =>
          let id := requiredAt (ast.RequiredLocs found) pos "" in
          let id := optionalAt (ast.Optional found) pos id in
          Some (Return (id, []))
      | ast.Index _ _ _ =>
          match resolveIndex node with
          | [] => Some (Panic "runtime error: index out of range [0] with length 0")
          | id :: path => Some (Return (id, path))
          end
      | ast.Local _ binds _ => Some (Return (bindAt binds pos "", []))
      | ast.Var _ id => Some (Return (id, []))
      | found =>
          Some (Panic ("unable to find nodes of type " ++ ast.TypeName found))
      end
  end.

End idNode.

(** *** object.go: the path under a position *)

Record objectPath := mkObjectPath {
  opPath : list string;
  opLoc : jpos.Range;
  opBody : ast.Node;
  opRequiredID : option ast.Identifier
}.

(** [fn.Parameters.RequiredLocs[id]] *)
Fixpoint RequiredLocs_get (rl : list (ast.Identifier * ast.LocationRange))
    (id : ast.Identifier) : option ast.LocationRange :=
  match rl with
  | [] => None
  | (k, loc) :: rest => if String.eqb k id then Some loc else RequiredLocs_get rest id
  end.

(** The loop over the required parameters of a field function: the first
    parameter whose recorded range contains the position, an error for a
    parameter without a recorded range. *)
Fixpoint requiredParamAt (ids : list ast.Identifier)
    (rl : list (ast.Identifier * ast.LocationRange)) (pos : jpos.Position)
  : outcome (option (ast.Identifier * ast.LocationRange)) :=
  match ids with
  | [] => Return None
  | id :: rest =>
      match RequiredLocs_get rl id with
      | None => Fail (Errorf "unable to find location for %s" [ArgS id])
      | Some paramLoc =>
          if jpos.IsInJsonnetRange pos paramLoc then Return (Some (id, paramLoc))
          else requiredParamAt rest rl pos
      end
  end.

Definition nil_dereference : string :=
  "runtime error: invalid memory address or nil pointer dereference".

Section pathToLocation_fields.

(** The loop of pathToLocation over the fields of [o]; [self] is the
    recursive call on a nested object. *)
Variable self : ast.DesugaredObjectT -> outcome objectPath.
Variable o : ast.DesugaredObjectT.
Variable pos : jpos.Position.

(** One iteration from [bodyLoc := field.Body.Loc()] to the end of the loop
    body; [next] is the rest of the loop (what [continue] goes to).  Calling
    [Loc] on a nil body is a nil dereference. *)
Definition overFieldBody (field : ast.DesugaredObjectField)
    (next : outcome objectPath) : outcome objectPath :=
  match ast.Body field with
  | ast.Nil => Panic nil_dereference
  | fbody =>
      match ast.Loc fbody with
      | None => next
      | Some bodyLoc =>
          if negb (jpos.IsInJsonnetRange pos bodyLoc) then next
          else
            match ast.Name field with
            | ast.LiteralString _ name =>
                match fbody with
                | ast.Local _ _ (ast.DesugaredObject n) =>
                    match self n with
                    | Return op =>
                        Return (mkObjectPath (name :: opPath op) (opLoc op)
                                  (opBody op) (opRequiredID op))
                    | Fail err => Fail err
                    | Panic m => Panic m
                    end
                | ast.Local _ _ _ =>
                    match fieldNameLoc o name with
                    | Return r => Return (mkObjectPath [name] r fbody None)
                    | Fail err => Fail err
                    | Panic m => Panic m
                    end
                | _ => Fail (errors_New "expected scope to be defined in field body")
                end
            | _ => next
            end
      end
  end.

(** One iteration of the loop, from its first statement. *)
Definition overField (field : ast.DesugaredObjectField)
    (next : outcome objectPath) : outcome objectPath :=
  match findFieldFunction field with
  | Some fn =>
      match fieldName field with
      | Panic m => Panic m
      | Fail err => Fail err
      | Return name =>
          match FieldLocs_get (ast.FieldLocs o) name with
          | None => Fail (Errorf "unable to find location for field %s" [ArgS name])
          | Some start =>
              match ast.FunBody fn with
              | ast.Nil => Panic nil_dereference
              | fnBody =>
                  match ast.Loc fnBody with
                  | None =>
                      Fail (Errorf "body has no location for field %s" [ArgS name])
                  | Some end_ =>
                      let jfr :=
                        ast.mkLocationRange (ast.FileName end_)
                          (ast.Begin start) (ast.End end_) in
                      if negb (jpos.IsInJsonnetRange pos jfr) then next
                      else
                        match requiredParamAt (ast.Required fn)
                                (ast.RequiredLocs fn) pos with
                        | Panic m => Panic m
                        | Fail err => Fail err
                        | Return (Some (id, paramLoc)) =>
                            Return (mkObjectPath [name]
                                      (jpos.FromJsonnetRange paramLoc)
                                      (ast.Body field) (Some id))
                        | Return None => overFieldBody field next
                        end
                  end
              end
          end
      end
  | None => overFieldBody field next
  end.

Fixpoint overFields (fs : list ast.DesugaredObjectField) : outcome objectPath :=
  match fs with
  | [] => Fail (Errorf "position %s could not be identified" [ArgPos pos])
  | field :: rest => overField field (overFields rest)
  end.

End pathToLocation_fields.

(** pathToLocation: the position over a field name first, then the loop
    over the fields, which recurses into the object nested in a field body. *)
Fixpoint pathToLocation (o : ast.DesugaredObjectT) (pos : jpos.Position) {struct o}
  : outcome objectPath :=
  match fieldNameAt o pos with
  | (name, r, None) => Return (mkObjectPath [name] r ast.Nil None)
  | (_, _, Some _) =>
      overFields (fun n => pathToLocation n pos) o pos (ast.Fields o)
  end.

End token.

(** ** Go's int: 64-bit two's complement *)

Definition wrap64 (z : Z) : Z := (z + 2 ^ 63) mod 2 ^ 64 - 2 ^ 63.
Definition add64 (a b : Z) : Z := wrap64 (a + b).
Definition sub64 (a b : Z) : Z := wrap64 (a - b).
Definition in_int64 (z : Z) : Prop := - 2 ^ 63 <= z < 2 ^ 63.

(** ** pkg/analysis/lexical/locate: locate.go *)

Module locate.

(** The dynamic type of the [token interface{}] argument of Locate.
    [TokNode] is a node pointer (every node type has a Loc method, so it
    satisfies nodeLoc); [TokOther] is a value of any other type, with the
    name [%T] prints for it. *)
Inductive Token :=
| TokNode (n : ast.Node)
| TokDesugaredObjectField (f : ast.DesugaredObjectField)
| TokForSpec
| TokIdentifier (id : ast.Identifier)
| TokLocalBind (b : ast.LocalBind)
| TokNamedParameter (p : ast.NamedParameter)
| TokRequiredParameter (id : ast.Identifier)
| TokOther (tyname : string).


Record Locatable := mkLocatable {
  LToken : Token;
  LLoc : ast.LocationRange
}.


Section Locate.

(** The per-kind locators of the package are not part of the sources. *)
Variable DesugaredObjectField :
  ast.DesugaredObjectField -> ast.LocationRange -> string -> outcome ast.LocationRange.
Variable ForSpec : ast.LocationRange -> string -> outcome ast.LocationRange.
Variable Identifier :
  ast.Identifier -> ast.LocationRange -> string -> outcome ast.LocationRange.
Variable LocalBind :
  ast.LocalBind -> ast.LocationRange -> string -> outcome ast.LocationRange.
Variable NamedParameter :
  ast.NamedParameter -> ast.LocationRange -> string -> outcome ast.LocationRange.
Variable RequiredParameter :
  ast.Identifier -> ast.LocationRange -> string -> outcome ast.LocationRange.


End Locate.

Definition createLoc (l c : Z) : ast.Location := ast.mkLocation l c.

Definition newline : ascii := Ascii.ascii_of_nat 10.

(** The scanner loop of findLocation2 (bufio.ScanBytes: one byte per
    iteration), with the loop variables [row], [col] and [i]. *)
Fixpoint findLocation2_loop (source : string) (pos row col i : Z)
  : outcome ast.Location :=
  match source with
  | EmptyString => Fail (errors_New "position was not in source")
  | String t rest =>
      let '(row, col) :=
        if Ascii.eqb t newline then (add64 row 1, 1) else (row, col) in
      if pos =? i then Return (createLoc row col)
      else findLocation2_loop rest pos row col (add64 i 1)
  end.

Definition findLocation2 (source : string) (pos : Z) : outcome ast.Location :=
  findLocation2_loop source pos 1 1 0.

End locate.

(** ** The transport's payload types (package lsp): 0-indexed positions *)

Module lsp.

Record Position := mkPosition { Line : Z; Character : Z }.
Record Range := mkRange { Start : Position; End : Position }.
Record MarkedString := mkMarkedString { Language : string; Value : string }.
Record Hover := mkHover { Contents : list MarkedString; HRange : Range }.


(** Diagnostics, as they are published. *)
Record Diagnostic := mkDiagnostic {
  DRange : Range;
  DMessage : string;
  Severity : Z
}.

Definition Error : Z := 1.

Record PublishDiagnosticsParams := mkPublishDiagnosticsParams {
  PURI : string;
  Diagnostics : list Diagnostic
}.

End lsp.

(** ** pkg/analysis/lexical: lexical.go *)

Module lexical.

(** [&lsp.Hover{}]: every field at its zero value. *)
Definition emptyHover : lsp.Hover :=
  lsp.mkHover [] (lsp.mkRange (lsp.mkPosition 0 0) (lsp.mkPosition 0 0)).

(** What [locatable.Resolve()] returns. *)
Record Resolved := mkResolved {
  Description : string;
  RLocation : ast.LocationRange
}.

Section HoverAtLocation.

(** The hover visitor and the locatable's resolver are not part of the
    sources.  [TokenAtLocation] returns a possibly nil pointer. *)
Variable Visitor : Type.
Variable newHoverVisitor : string -> string -> ast.Location -> outcome Visitor.
Variable TokenAtLocation : Visitor -> outcome (option locate.Locatable).
Variable Resolve : locate.Locatable -> outcome Resolved.

Definition HoverAtLocation (filename : string) (r : string) (l c : Z)
  : outcome lsp.Hover :=
  let loc := ast.mkLocation l c in
  match newHoverVisitor filename r loc with
  | Panic m => Panic m
  | Fail err => Fail err
  | Return v =>
      match TokenAtLocation v with
      | Panic m => Panic m
      | Fail err => Fail err
      | Return None => Return emptyHover
      | Return (Some locatable) =>
          match Resolve locatable with
          | Panic m => Panic m
          | Fail ErrUnresolvable => Return emptyHover
          | Fail err => Fail err
          | Return resolved =>
              let rl := RLocation resolved in
              Return (lsp.mkHover
                [lsp.mkMarkedString "jsonnet" (Description resolved)]
                (lsp.mkRange
                   (lsp.mkPosition (sub64 (ast.Line (ast.Begin rl)) 1)
                                   (sub64 (ast.Column (ast.Begin rl)) 1))
                   (lsp.mkPosition (sub64 (ast.Line (ast.End rl)) 1)
                                   (sub64 (ast.Column (ast.End rl)) 1))))
          end
      end
  end.

End HoverAtLocation.

(** *** document_processor.go *)

(** token.ParseDiagnostic (declared in a file that is not part of the
    sources): the fields Process reads. *)
Record ParseDiagnostic := mkParseDiagnostic {
  PDMessage : string;
  PDLoc : ast.LocationRange
}.

(** An error with the contexts [errors.Wrap] put around it. *)
Inductive wrapped :=
| Bare (e : error)
| Wrap (cause : wrapped) (message : string).

(** What Process does to the outside. *)
Inductive ProcessEffect :=
| Notify (method : string) (params : lsp.PublishDiagnosticsParams)
| SpanLog (key value : string)
| SpanLogError (err : error).

Definition is_notify (e : ProcessEffect) : bool :=
  match e with Notify _ _ => true | _ => false end.

Section Process.

(** Range.ToLSP of the position package, token.Parse and token.DesugarFile
    are not part of the sources.  [parsed] is what Parse returned and
    [desugar] what DesugarFile does to the parsed node. *)
Variable ToLSP : jpos.Range -> lsp.Range.

Definition convertToNode (parsed : ast.Node + error)
    (desugar : ast.Node -> ast.Node + error) : ast.Node + wrapped :=
  match parsed with
  | inr err => inr (Wrap (Bare err) "parsing source")
  | inl node =>
      match desugar node with
      | inr err => inr (Bare err)
      | inl node => inl node
      end
  end.

(** The goroutine that drains the diagnostics channel: a diagnostic is kept
    only when there is a connection. *)
Fixpoint collect (hasConn : bool) (sent : list ParseDiagnostic)
    (diagnostics : list lsp.Diagnostic) : list lsp.Diagnostic :=
  match sent with
  | [] => diagnostics
  | d :: rest =>
      collect hasConn rest
        (if hasConn
         then (diagnostics
               ++ [lsp.mkDiagnostic (ToLSP (jpos.FromJsonnetRange (PDLoc d)))
                     (PDMessage d) lsp.Error])%list
         else diagnostics)
  end.

(** PerformDiagnostics.Process.  [toPath] is what uri.ToPath returned for
    the document's URI, [sent] the diagnostics the parser put on the channel,
    [conn] the connection ([None]: nil) with the error its Notify returns. *)
Definition Process (docURI : string) (toPath : string + error)
    (sent : list ParseDiagnostic) (parsed : ast.Node + error)
    (desugar : ast.Node -> ast.Node + error) (conn : option (option error))
  : list ProcessEffect * option wrapped :=
  match toPath with
  | inr err => ([SpanLog "caching" docURI], Some (Bare err))
  | inl filename =>
      let hasConn := match conn with Some _ => true | None => false end in
      let diagnostics := collect hasConn sent [] in
      match convertToNode parsed desugar with
      | inr err =>
          ([SpanLog "caching" docURI], Some (Wrap err "converting source to node"))
      | inl _ =>
          match conn with
          | None => ([SpanLog "caching" docURI], None)
          | Some notifyErr =>
              ([SpanLog "caching" docURI; SpanLog "event" "sending diagnostics";
                Notify "textDocument/publishDiagnostics"
                  (lsp.mkPublishDiagnosticsParams docURI diagnostics)]
               ++ match notifyErr with
                  | Some err => [SpanLogError err]
                  | None => []
                  end,
               None)%list
          end
      end
  end.

End Process.

End lexical.

(** ** Go's standard library: strings.Split and regexp *)

Module go_strings.

Definition dot : ascii := Ascii.ascii_of_nat 46.

(** [strings.Split(s, ".")]: the pieces of [s] between the dots; a string
    without a dot (the empty one too) gives a single piece. *)
Fixpoint Split_dot (s : string) : list string :=
  match s with
  | EmptyString => [EmptyString]
  | String c rest =>
      if Ascii.eqb c dot then EmptyString :: Split_dot rest
      else match Split_dot rest with
           | piece :: pieces => String c piece :: pieces
           | [] => [String c EmptyString]
           end
  end.

End go_strings.

Module go_regexp.

(** Regular expressions over bytes, matched by derivatives. *)
Inductive re :=
| Void
| Eps
| Class (p : ascii -> bool)
| Alt (a b : re)
| Cat (a b : re)
| Star (a : re).

Definition Plus (a : re) : re := Cat a (Star a).

Fixpoint nullable (r : re) : bool :=
  match r with
  | Void => false
  | Eps => true
  | Class _ => false
  | Alt a b => nullable a || nullable b
  | Cat a b => nullable a && nullable b
  | Star _ => true
  end.

Fixpoint deriv (c : ascii) (r : re) : re :=
  match r with
  | Void => Void
  | Eps => Void
  | Class p => if p c then Eps else Void
  | Alt a b => Alt (deriv c a) (deriv c b)
  | Cat a b =>
      if nullable a then Alt (Cat (deriv c a) b) (deriv c b)
      else Cat (deriv c a) b
  | Star a => Cat (deriv c a) (Star a)
  end.

(** [matches r s]: the whole of [s] is in the language of [r]. *)
Fixpoint matches (r : re) (s : string) : bool :=
  match s with
  | EmptyString => nullable r
  | String c rest => matches (deriv c r) rest
  end.

(** [FindAllString(source, 1)] for a pattern [r$]: without the multi-line
    flag [$] is the end of the text, so a match that starts at offset [i]
    is [source[i:]] and exists when [r] matches that suffix in full.  Go
    returns the leftmost match; nil (the empty list) when there is none. *)
Fixpoint FindAllString_1_anchored (r : re) (source : string) : list string :=
  if matches r source then [source]
  else match source with
       | EmptyString => []
       | String _ rest => FindAllString_1_anchored r rest
       end.

(** [\w]: ASCII letters, digits and underscore. *)
Definition word_char (c : ascii) : bool :=
  let n := Ascii.nat_of_ascii c in
  ((48 <=? n) && (n <=? 57) || (65 <=? n) && (n <=? 90)
   || (97 <=? n) && (n <=? 122) || (n =? 95))%nat.

End go_regexp.

(** ** pkg/server *)

Module server.

(** *** hover.go *)

Section hover.

Variable Visitor : Type.
Variable newHoverVisitor : string -> string -> ast.Location -> outcome Visitor.
Variable TokenAtLocation : Visitor -> outcome (option locate.Locatable).
Variable Resolve : locate.Locatable -> outcome lexical.Resolved.

(** uri.ToPath and the configuration's Text are external collaborators. *)
Variable uri_ToPath : string -> outcome string.
Variable config_Text : string -> outcome string.


End hover.


(** *** The completion handler's index extraction *)

Definition is_char (a : ascii) (c : ascii) : bool := Ascii.eqb c a.

(** The class [[;\]\)\}]]. *)
Definition closer_char (c : ascii) : bool :=
  is_char ";" c || is_char "]" c || is_char ")" c || is_char "}" c.

(** reIndex is [((\w+\.)*\w+)\.[;\]\)\}]*$]; the final [$] is taken care of
    by [FindAllString_1_anchored]. *)
Definition reIndex : go_regexp.re :=
  let w := go_regexp.Class go_regexp.word_char in
  let dot := go_regexp.Class (is_char ".") in
  go_regexp.Cat
    (go_regexp.Cat
       (go_regexp.Cat (go_regexp.Star (go_regexp.Cat (go_regexp.Plus w) dot))
                      (go_regexp.Plus w))
       dot)
    (go_regexp.Star (go_regexp.Class closer_char)).

Definition ignoredIndexItems : list string := ["}"; "]"; ")"; ";"].

Fixpoint stringInSlice (s : string) (sl : list string) : bool :=
  match sl with
  | [] => false
  | x :: rest => if String.eqb x s then true else stringInSlice s rest
  end.

Fixpoint removeEmpty (sl : list string) : list string :=
  match sl with
  | [] => []
  | s :: rest =>
      if negb (String.eqb s "") then
        if negb (stringInSlice s ignoredIndexItems) then s :: removeEmpty rest
        else removeEmpty rest
      else removeEmpty rest
  end.

Definition resolveIndex (source : string) : outcome (list string) :=
  match go_regexp.FindAllString_1_anchored reIndex source with
  | [] => Fail (Errorf "%q does not contain an index" [ArgQ source])
  | [m] => Return (removeEmpty (go_strings.Split_dot m))
  | _ => Fail (Errorf "expected only one match when looking for index" [])
  end.

(** *** handler.go: the request handler and the cache rebuild watcher *)

(** A message built by [fmt.Sprintf], kept unrendered. *)
Record Message := Sprintf { msgFormat : string; msgArgs : list fmt_arg }.

(** What a handler does to the outside: replies on the connection,
    notifications to the client, entries in the span or the log. *)
Inductive Effect :=
| Reply (response : string)
| ReplyWithError (code : Z) (err : error)
| ShowMessage (messageType : Z) (msg : Message)
| SpanLogString (key : string) (value : Message)
| SpanLogError (err : error)
| LogErrorCall (err : error).

Definition CodeInternalError : Z := -32603.
Definition MTWarning : Z := 2.

Section Handle.

(** The [operations] table: the operation registered for a method. *)
Variable operations : string -> option (string -> outcome string).

(** The body of Handle after the deferred function is registered. *)
Definition Handle_body (method params : string) : outcome (list Effect) :=
  match operations method with
  | None =>
      Return [SpanLogString "error"
                (Sprintf "unable to handle message type %s" [ArgS params])]
  | Some fn =>
      match fn params with
      | Panic v => Panic v
      | Fail err =>
          Return [SpanLogError err; ReplyWithError CodeInternalError err]
      | Return response => Return [Reply response]
      end
  end.

(** [defer func() { if r := recover(); r != nil { ... } }()]: the
    recovered value is put into an error (the stack trace that follows it
    is left out) and handed to [log.Error] of the tracing library. *)
Definition deferred_recover (body : outcome (list Effect)) : outcome (list Effect) :=
  match body with
  | Panic v => Return [LogErrorCall (Errorf "(CRASH) %v: %s" [ArgS v])]
  | r => r
  end.

Definition Handle (method params : string) : outcome (list Effect) :=
  deferred_recover (Handle_body method params).

End Handle.

(** What one [select] of updateNodeCache receives: an error from errCh,
    the value from done, or the tick of the timer. *)
Inductive Event :=
| EvErr (err : error)
| EvDone
| EvTimer.

Definition running (file : string) : Effect :=
  ShowMessage MTWarning (Sprintf "Import processing for %q is running" [ArgQ file]).

Definition complete (file : string) : Effect :=
  ShowMessage MTWarning (Sprintf "Import processing for %q is complete" [ArgQ file]).

Definition is_running (e : Effect) : bool :=
  match e with
  | ShowMessage _ (Sprintf f _) => String.eqb f "Import processing for %q is running"
  | _ => false
  end.

Definition is_complete (e : Effect) : bool :=
  match e with
  | ShowMessage _ (Sprintf f _) => String.eqb f "Import processing for %q is complete"
  | _ => false
  end.

Definition is_notification (e : Effect) : bool :=
  match e with ShowMessage _ _ => true | _ => false end.

(** The [for { select { ... } }] loop of updateNodeCache, run on the
    events in the order the select receives them, with the loop variable
    [sentNotif].  The result is what the loop did and whether it returned
    ([false]: it is still blocked in the select). *)
Fixpoint updateNodeCache_loop (path file : string) (events : list Event)
    (sentNotif : bool) : list Effect * bool :=
  match events with
  | [] => ([], false)
  | EvErr err :: _ =>
      ([SpanLogString "uri" (Sprintf "%s" [ArgS path]); SpanLogError err], true)
  | EvDone :: _ =>
      (if sentNotif
       then [complete file;
             SpanLogString "status" (Sprintf "cancel notification" [])]
       else [],
       true)
  | EvTimer :: rest =>
      let '(effects, returned) := updateNodeCache_loop path file rest true in
      (running file :: SpanLogString "status" (Sprintf "send notification" [])
         :: effects,
       returned)
  end.

(** updateNodeCache; [toPath] is what uri.ToPath returned (a path or an
    error) and [file] the file part of the path. *)
Definition updateNodeCache (toPath : string + error) (file : string)
    (events : list Event) : list Effect * bool :=
  match toPath with
  | inl path => updateNodeCache_loop path file events false
  | inr err => ([SpanLogError err], true)
  end.

(** The notifications among the effects, in order. *)
Definition notifications (effects : list Effect) : list Effect :=
  List.filter is_notification effects.

(** time.NewTimer delivers one tick on its channel. *)
Definition timer_one_shot (events : list Event) : Prop :=
  (List.length (List.filter (fun e => match e with EvTimer => true | _ => false end)
                  events) <= 1)%nat.

End server.

(** ** pkg/config: the configuration, its text documents and its dispatchers *)

Module config.

Definition JsonnetLibPaths : string := "jsonnet.libPaths".
Definition TextDocumentUpdates : string := "textDocument.update".

(** A value held in an [interface{}], as the JSON decoder builds it; the
    name is what [%T] prints. *)
Inductive GoValue :=
| VNil
| VBool (b : bool)
| VFloat64 (literal : string)
| VString (s : string)
| VSlice (items : list GoValue)
| VStrings (ss : list string)
| VMap (entries : list (string * GoValue)).

Definition GoTypeName (v : GoValue) : string :=
  match v with
  | VNil => "<nil>"
  | VBool _ => "bool"
  | VFloat64 _ => "float64"
  | VString _ => "string"
  | VSlice _ => "[]interface {}"
  | VStrings _ => "[]string"
  | VMap _ => "map[string]interface {}"
  end.

(** An error, or an error wrapped by [errors.Wrapf]. *)
Inductive cfg_error :=
| Plain (e : error)
| Wrapf (cause : error) (format : string) (args : list fmt_arg).

(** The loop of interfaceToStrings over the items, with the slice [out]
    built so far. *)
Fixpoint itemsToStrings (v : list GoValue) (out : list string)
  : list string + error :=
  match v with
  | [] => inl out
  | VString str :: rest => itemsToStrings rest (out ++ [str])%list
  | _ :: _ => inr (Errorf "item was not a string" [])
  end.

Definition interfaceToStrings (v : GoValue) : list string + error :=
  match v with
  | VSlice items => itemsToStrings items []
  | VStrings ss => inl ss
  | _ => inr (Errorf "unable to convert %T to array of strings" [ArgT (GoTypeName v)])
  end.

(** A text document (its type is declared in a file that is not part of the
    sources; these are the fields the functions use). *)
Record TextDocument := mkTextDocument {
  text : string;
  uri : string;
  version : Z
}.

(** What is dispatched to watchers. *)
Inductive Message :=
| MsgTextDocument (td : TextDocument)
| MsgPaths (paths : list string).

Section dispatcher.

(** The watcher functions; a dispatcher maps registration ids to them. *)
Variable DispatchFn : Type.

(** Dispatcher.Dispatch starts one call per registered function; the calls
    run on their own, so the result is the collection of started calls. *)
Definition Dispatch (keys : gmap string DispatchFn) (v : Message)
  : list (DispatchFn * Message) :=
  (fun kv => (snd kv, v)) <$> map_to_list keys.

(** Dispatcher.Watch with the fresh id [u] that uuid.NewV4 produced: the new
    dispatcher, and the id that the returned cancel function deletes. *)
Definition Watch (keys : gmap string DispatchFn) (u : string) (fn : DispatchFn)
  : gmap string DispatchFn :=
  <[u := fn]> keys.

Definition cancel (keys : gmap string DispatchFn) (u : string)
  : gmap string DispatchFn :=
  delete u keys.

(** Config; the node cache it also carries is not read or written by the
    functions below. *)
Record Config := mkConfig {
  textDocuments : gmap string TextDocument;
  jsonnetLibPaths : list string;
  dispatchers : gmap string (gmap string DispatchFn)
}.

Definition New : Config := mkConfig ∅ [] ∅.

(** Config.dispatcher: the dispatcher of key [k], created when missing. *)
Definition dispatcher (c : Config) (k : string) : Config * gmap string DispatchFn :=
  match dispatchers c !! k with
  | Some d => (c, d)
  | None =>
      (mkConfig (textDocuments c) (jsonnetLibPaths c) (<[k := ∅]> (dispatchers c)), ∅)
  end.

Definition dispatch (c : Config) (k : string) (msg : Message)
  : Config * list (DispatchFn * Message) :=
  let '(c, d) := dispatcher c k in (c, Dispatch d msg).

(** Config.Watch with the fresh id [u]. *)
Definition ConfigWatch (c : Config) (k u : string) (fn : DispatchFn) : Config :=
  let '(c, d) := dispatcher c k in
  mkConfig (textDocuments c) (jsonnetLibPaths c) (<[k := Watch d u fn]> (dispatchers c)).

Definition StoreTextDocumentItem (c : Config) (td : TextDocument)
  : Config * list (DispatchFn * Message) :=
  let c := mkConfig (<[uri td := td]> (textDocuments c)) (jsonnetLibPaths c)
             (dispatchers c) in
  dispatch c TextDocumentUpdates (MsgTextDocument td).

(** UpdateTextDocumentItem: [dctdp.ContentChanges[0]] needs a first change. *)
Definition UpdateTextDocumentItem (c : Config) (contentChanges : list string)
    (docURI : string) (docVersion : Z)
  : outcome (Config * list (DispatchFn * Message)) :=
  match contentChanges with
  | [] => Panic "runtime error: index out of range [0] with length 0"
  | change :: _ =>
      Return (StoreTextDocumentItem c (mkTextDocument change docURI docVersion))
  end.

(** Config.Text; uri.ToPath and ioutil.ReadFile are external. *)
Definition Text (uri_ToPath ReadFile : string -> string + error)
    (c : Config) (uriStr : string) : TextDocument + error :=
  match textDocuments c !! uriStr with
  | Some td => inl td
  | None =>
      match uri_ToPath uriStr with
      | inr err => inr err
      | inl path =>
          match ReadFile path with
          | inr err => inr err
          | inl data => inl (mkTextDocument data "" 0)
          end
      end
  end.

(** UpdateClientConfiguration ranges over the update map; the list holds its
    entries in the order of that iteration.  The result is the configuration
    as the call leaves it, what was dispatched, and the error. *)
Fixpoint UpdateClientConfiguration (c : Config) (update : list (string * GoValue))
  : Config * list (DispatchFn * Message) * option cfg_error :=
  match update with
  | [] => (c, [], None)
  | (k, v) :: rest =>
      if String.eqb k JsonnetLibPaths then
        match interfaceToStrings v with
        | inr err => (c, [], Some (Wrapf err "setting %q" [ArgQ JsonnetLibPaths]))
        | inl paths =>
            let c := mkConfig (textDocuments c) paths (dispatchers c) in
            let '(c, calls) := dispatch c JsonnetLibPaths (MsgPaths paths) in
            let '(c, calls', err) := UpdateClientConfiguration c rest in
            (c, (calls ++ calls')%list, err)
        end
      else
        (c, [],
         Some (Plain (Errorf "setting %q is unknown to the jsonnet language server"
                        [ArgQ k])))
  end.

End dispatcher.

End config.

(** * Example inputs *)

(** The tree of the object-mapper test, [{a: {b: 'c'}}] in file.jsonnet. *)
Definition test_range (l1 c1 l2 c2 : Z) : ast.LocationRange :=
  ast.mkLocationRange "file.jsonnet" (ast.mkLocation l1 c1) (ast.mkLocation l2 c2).

Definition test_nested : ast.DesugaredObjectT :=
  ast.mkDesugaredObject 2%positive (Some (test_range 1 5 1 13))
    [ast.mkDesugaredObjectField
       (ast.LiteralString None "b")
       (ast.Local None [] (ast.LiteralString (Some (test_range 1 9 1 12)) "c"))]
    [(ast.KeyString "b", test_range 1 6 1 7)].

Definition test_object : ast.DesugaredObjectT :=
  ast.mkDesugaredObject 1%positive (Some (test_range 1 1 1 14))
    [ast.mkDesugaredObjectField
       (ast.LiteralString None "a")
       (ast.Local None [] (ast.DesugaredObject test_nested))]
    [(ast.KeyString "a", test_range 1 2 1 3)].

Definition test_mapper : token.objectMapper :=
  fst (token.add (fst (token.add ∅ test_object "a")) test_nested "b").

(** Objects for fieldNameAt: [{'a': 'a'}] and [{[a]: 'a'}] of the
    path-to-location test, an object whose computed key is a binary
    expression, and a hand-built object in which a string key and a variable
    key are recorded with the same name range. *)
Definition string_key_object : ast.DesugaredObjectT :=
  ast.mkDesugaredObject 3%positive (Some (test_range 1 1 1 11))
    [ast.mkDesugaredObjectField
       (ast.LiteralString None "a")
       (ast.Local None [] (ast.LiteralString (Some (test_range 1 7 1 10)) "a"))]
    [(ast.KeyString "a", test_range 1 2 1 5)].

Definition var_key_object : ast.DesugaredObjectT :=
  ast.mkDesugaredObject 4%positive (Some (test_range 1 1 1 11))
    [ast.mkDesugaredObjectField
       (ast.Var None "a")
       (ast.Local None [] (ast.LiteralString (Some (test_range 1 7 1 10)) "a"))]
    [(ast.KeyNode (ast.Var None "a"), test_range 1 2 1 5)].

Definition binary_key : ast.Node :=
  ast.Binary None (ast.Var None "a") (ast.Var None "b").

Definition binary_key_object : ast.DesugaredObjectT :=
  ast.mkDesugaredObject 5%positive (Some (test_range 1 1 1 13))
    [ast.mkDesugaredObjectField
       binary_key
       (ast.Local None [] (ast.LiteralString (Some (test_range 1 9 1 12)) "a"))]
    [(ast.KeyNode binary_key, test_range 1 2 1 7)].

Definition overlapping_object : ast.DesugaredObjectT :=
  ast.mkDesugaredObject 6%positive (Some (test_range 1 1 1 20))
    [ast.mkDesugaredObjectField
       (ast.LiteralString None "a")
       (ast.Local None [] (ast.LiteralNumber (Some (test_range 1 7 1 8)) "1"));
     ast.mkDesugaredObjectField
       (ast.Var None "k")
       (ast.Local None [] (ast.LiteralNumber (Some (test_range 1 16 1 17)) "2"))]
    [(ast.KeyString "a", test_range 1 2 1 5);
     (ast.KeyNode (ast.Var None "k"), test_range 1 2 1 5)].

(** Stand-ins for the hover visitor and the resolver: the visitor is the
    location it was built for; a token is found on line 1 only; the token in
    column 1 is unresolvable, the one in column 9 fails for another reason. *)
Definition demo_newHoverVisitor (filename r : string) (loc : ast.Location)
  : outcome ast.Location :=
  if String.eqb r "" then Fail (errors_New "no text") else Return loc.

Definition demo_TokenAtLocation (v : ast.Location) : outcome (option locate.Locatable) :=
  if ast.Line v =? 1 then
    Return (Some (locate.mkLocatable (locate.TokIdentifier "a")
                    (ast.mkLocationRange "file.jsonnet" v
                       (ast.mkLocation (ast.Line v) (ast.Column v + 1)))))
  else Return None.

Definition demo_Resolve (l : locate.Locatable) : outcome lexical.Resolved :=
  if ast.Column (ast.Begin (locate.LLoc l)) =? 1 then Fail ErrUnresolvable
  else if ast.Column (ast.Begin (locate.LLoc l)) =? 9 then Fail (errors_New "broken")
  else Return (lexical.mkResolved "identifier" (locate.LLoc l)).




(** * Vocabulary of the properties *)

(** The error of fieldNameAt for a variable key. *)
Definition unsupported_key : error := errors_New "variable keys are unsupported".

(** What fieldNameAt returns when the first entry that contains the position
    has key [k] and range [loc]. *)
Definition fieldNameAt_result (k : ast.FieldKey) (loc : ast.LocationRange)
  : string * jpos.Range * option error :=
  match k with
  | ast.KeyString name => (name, jpos.FromJsonnetRange loc, None)
  | ast.KeyNode (ast.Var _ _) => ("", jpos.zeroRange, Some unsupported_key)
  | _ => ("", jpos.zeroRange,
          Some (Errorf "invalid field name type %T" [ArgT (token.KeyTypeName k)]))
  end.

(** The number of newline bytes among the first [n] bytes of [s]. *)
Fixpoint newlines_in (s : string) (n : nat) : Z :=
  match n, s with
  | S n, String t rest =>
      (if Ascii.eqb t locate.newline then 1 else 0) + newlines_in rest n
  | _, _ => 0
  end.

Definition strlen (s : string) : Z := Z.of_nat (String.length s).


(** ** The text of a dotted path and the language of a pattern *)

Section index_vocabulary.

Import go_regexp.

(** The language of a regular expression. *)
Inductive lang : re -> string -> Prop :=
| lang_Eps : lang Eps EmptyString
| lang_Class p c : p c = true -> lang (Class p) (String c EmptyString)
| lang_Alt_l a b s : lang a s -> lang (Alt a b) s
| lang_Alt_r a b s : lang b s -> lang (Alt a b) s
| lang_Cat a b s1 s2 : lang a s1 -> lang b s2 -> lang (Cat a b) (s1 ++ s2)
| lang_Star_nil a : lang (Star a) EmptyString
| lang_Star_cons a s1 s2 : lang a s1 -> lang (Star a) s2 -> lang (Star a) (s1 ++ s2).

(** Every byte of [s] satisfies [p]. *)
Fixpoint all_chars (p : ascii -> bool) (s : string) : bool :=
  match s with
  | EmptyString => true
  | String c rest => p c && all_chars p rest
  end.

(** A path segment: a non-empty string of word characters. *)
Definition is_segment (w : string) : bool :=
  negb (String.eqb w "") && all_chars go_regexp.word_char w.

(** [dotted [w1; ...; wn]] is [w1.w2. ... wn.], every segment followed by
    its dot. *)
Fixpoint dotted (ws : list string) : string :=
  match ws with
  | [] => EmptyString
  | w :: rest => w ++ String go_strings.dot (dotted rest)
  end.

Definition word_or_dot (c : ascii) : bool :=
  go_regexp.word_char c || Ascii.eqb c go_strings.dot.

(** Word characters and dots, then closers only. *)
Fixpoint path_shape (s : string) : bool :=
  match s with
  | EmptyString => true
  | String c rest =>
      if word_or_dot c then path_shape rest else all_chars server.closer_char s
  end.

(** The text before the path is empty or ends in a byte that is neither a
    word character nor a dot. *)
Fixpoint ends_free (p : string) : bool :=
  match p with
  | EmptyString => true
  | String c EmptyString => negb (word_or_dot c)
  | String _ rest => ends_free rest
  end.

Definition not_dot (c : ascii) : bool := negb (Ascii.eqb c go_strings.dot).

(** At most one closer: the empty string or a single closer byte. *)
Definition at_most_one_closer (cs : string) : bool :=
  match cs with
  | EmptyString => true
  | String c EmptyString => server.closer_char c
  | _ => false
  end.

(** The repeated group [\w+\.] of reIndex. *)
Definition reIndex_group : re := Cat (Plus (Class word_char)) (Class (server.is_char ".")).

End index_vocabulary.

(** ** Vocabulary and inputs for the further properties *)

(** The field is named by the string literal [name]. *)
Definition named (name : string) (f : ast.DesugaredObjectField) : Prop :=
  exists l, ast.Name f = ast.LiteralString l name.

(** The field is named by a string literal other than [name]. *)
Definition named_otherwise (name : string) (f : ast.DesugaredObjectField) : Prop :=
  exists l other, ast.Name f = ast.LiteralString l other /\ other <> name.

(** The field's name is not a string literal. *)
Definition computed_name (f : ast.DesugaredObjectField) : Prop :=
  forall l v, ast.Name f <> ast.LiteralString l v.

(** The trees of the path-to-location test: [{a:{b:'b'}}] and [{id(y): y}]. *)
Definition path_test_nested : ast.DesugaredObjectT :=
  ast.mkDesugaredObject 8%positive (Some (test_range 1 4 1 11))
    [ast.mkDesugaredObjectField
       (ast.LiteralString None "b")
       (ast.Local (Some (test_range 1 7 1 10)) []
          (ast.LiteralString (Some (test_range 1 7 1 10)) "b"))]
    [(ast.KeyString "b", test_range 1 5 1 6)].

Definition path_test_object : ast.DesugaredObjectT :=
  ast.mkDesugaredObject 7%positive (Some (test_range 1 1 1 12))
    [ast.mkDesugaredObjectField
       (ast.LiteralString None "a")
       (ast.Local (Some (test_range 1 4 1 11)) []
          (ast.DesugaredObject path_test_nested))]
    [(ast.KeyString "a", test_range 1 2 1 3)].

Definition function_field_object : ast.DesugaredObjectT :=
  ast.mkDesugaredObject 9%positive (Some (test_range 1 1 1 11))
    [ast.mkDesugaredObjectField
       (ast.LiteralString None "id")
       (ast.Local (Some (test_range 1 9 1 10)) []
          (ast.Function
             (ast.mkFunction (Some (test_range 1 4 1 10)) ["y"]
                [("y", test_range 1 5 1 6)] []
                (ast.Var (Some (test_range 1 9 1 10)) "y"))))]
    [(ast.KeyString "id", test_range 1 2 1 4)].



(** No range of the list contains the position. *)
Definition param_misses (pos : jpos.Position) (p : ast.NamedParameter) : Prop :=
  jpos.IsInJsonnetRange pos (ast.ParamLoc p) = false.

Definition required_misses (pos : jpos.Position)
    (e : ast.Identifier * ast.LocationRange) : Prop :=
  jpos.IsInJsonnetRange pos (snd e) = false.

Definition bind_misses (pos : jpos.Position) (b : ast.LocalBind) : Prop :=
  jpos.IsInJsonnetRange pos (ast.VarLoc b) = false.

(** A function [fn(x, y=1)] and a local with two binds, for idNode. *)
Definition two_param_function : ast.FunctionT :=
  ast.mkFunction (Some (test_range 1 7 1 22)) ["x"]
    [("x", test_range 1 10 1 11)]
    [ast.mkNamedParameter "y" (ast.LiteralNumber None "1") (test_range 1 12 1 15)]
    (ast.Var (Some (test_range 1 19 1 20)) "x").

Definition two_bind_local : ast.Node :=
  ast.Local (Some (test_range 1 1 1 20))
    [ast.mkLocalBind (test_range 1 7 1 8) "a" (ast.LiteralNumber None "1");
     ast.mkLocalBind (test_range 1 12 1 13) "b" (ast.LiteralNumber None "2")]
    (ast.Var (Some (test_range 1 17 1 18)) "a").

(** 1 for a newline byte at offset [n] of [s], 0 otherwise. *)
Definition newline_at (s : string) (n : nat) : Z :=
  match String.get n s with
  | Some c => if Ascii.eqb c locate.newline then 1 else 0
  | None => 0
  end.



(** A reply on the connection, with a result or with an error. *)
Definition is_reply (e : server.Effect) : bool :=
  match e with
  | server.Reply _ | server.ReplyWithError _ _ => true
  | _ => false
  end.

(** What Handle did, when it returned. *)
Definition handled (r : outcome (list server.Effect)) : list server.Effect :=
  match r with
  | Return effects => effects
  | _ => []
  end.

(** The number of timer ticks the select receives before the rebuild's
    result, and that result (done or an error), if it arrives. *)
Fixpoint leading_ticks (events : list server.Event) : nat :=
  match events with
  | server.EvTimer :: rest => S (leading_ticks rest)
  | _ => O
  end.

Fixpoint first_result (events : list server.Event) : option server.Event :=
  match events with
  | server.EvTimer :: rest => first_result rest
  | e :: _ => Some e
  | [] => None
  end.

(** An item of a decoded slice that is not a string. *)
Definition not_a_string (v : config.GoValue) : Prop :=
  forall s, v <> config.VString s.

(** An entry of a configuration update that UpdateClientConfiguration
    accepts: the library-paths setting with a value that converts. *)
Definition valid_setting (kv : string * config.GoValue) : Prop :=
  fst kv = config.JsonnetLibPaths
  /\ exists paths, config.interfaceToStrings (snd kv) = inl paths.

(** A file system for the examples: no file can be read. *)
Definition no_file (path : string) : string + error :=
  inr (errors_New "no such file").

Definition demo_uri_ToPath (u : string) : string + error := inl u.



(** The diagnostic published for a parser diagnostic. *)
Definition published (ToLSP : jpos.Range -> lsp.Range) (d : lexical.ParseDiagnostic)
  : lsp.Diagnostic :=
  lsp.mkDiagnostic (ToLSP (jpos.FromJsonnetRange (lexical.PDLoc d)))
    (lexical.PDMessage d) lsp.Error.

(** A conversion to the transport's ranges for the examples: both
    coordinates minus one. *)
Definition demo_ToLSP (r : jpos.Range) : lsp.Range :=
  lsp.mkRange
    (lsp.mkPosition (jpos.line (jpos.Start r) - 1) (jpos.column (jpos.Start r) - 1))
    (lsp.mkPosition (jpos.line (jpos.End r) - 1) (jpos.column (jpos.End r) - 1)).

(** The index [om] covers the object [o]: every string key of its FieldLocs
    and every field name is in the index under [o]; every field is named by
    a string literal, two fields of the same name are the same field; and
    the index covers the objects nested in the field bodies. *)
Inductive covered (om : token.objectMapper) : ast.DesugaredObjectT -> Prop :=
| covered_intro (o : ast.DesugaredObjectT) :
    (forall name loc, In (ast.KeyString name, loc) (ast.FieldLocs o) ->
                      is_Some (om !! (ast.Ptr o, name))) ->
    (forall f, In f (ast.Fields o) ->
               exists l name, ast.Name f = ast.LiteralString l name
                              /\ is_Some (om !! (ast.Ptr o, name))) ->
    (forall f g name, In f (ast.Fields o) -> In g (ast.Fields o) ->
                      named name f -> named name g -> f = g) ->
    (forall f l binds n, In f (ast.Fields o) ->
                         ast.Body f = ast.Local l binds (ast.DesugaredObject n) ->
                         covered om n) ->
    covered om o.

(** The index built for the tree of [{a:{b:'b'}}]. *)
Definition path_test_mapper : token.objectMapper :=
  fst (token.add (fst (token.add ∅ path_test_object "a")) path_test_nested "b").

(** * Properties *)

(** ** The object mapper (object.go) *)

Section objectMapper_lookup.

Import token.

Lemma fieldByName_loop_no_panic fields name :
  is_panic (fieldByName_loop fields name) = false.
Proof.
  induction fields as [|field rest IH]; simpl; [reflexivity|].
  unfold fieldName. destruct (ast.Name field); simpl; try reflexivity.
  destruct (String.eqb value name); [reflexivity | exact IH].
Qed.

Lemma fieldByName_no_panic o name : is_panic (fieldByName o name) = false.
Proof. apply fieldByName_loop_no_panic. Qed.

(** One unfolding of lookup on a path with at least two segments. *)
Lemma lookup_step om o name next rest :
  lookup om o (name :: next :: rest) =
  match om !! (ast.Ptr o, name) with
  | None => Fail (Errorf "field %s does not exist in object" [ArgS name])
  | Some _ =>
      match fieldByName o name with
      | Panic m => Panic m
      | Fail e => Fail e
      | Return nested =>
          match ast.Body nested with
          | ast.Local _ _ localBody =>
              match localBody with
              | ast.DesugaredObject nestedObject =>
                  lookup om nestedObject (next :: rest)
              | _ => Fail (Errorf "expected body to be an object; it was %T"
                             [ArgT (ast.TypeName localBody)])
              end
          | _ => Fail (Errorf "field %s doesn't have local scope" [ArgS name])
          end
      end
  end.
Proof. reflexivity. Qed.

Lemma lookup_nonempty_no_panic om path :
  path <> [] -> forall o, is_panic (lookup om o path) = false.
Proof.
  induction path as [|name path IH]; intros Hne o; [congruence|].
  destruct path as [|next rest].
  - simpl. destruct (om !! (ast.Ptr o, name)); reflexivity.
  - rewrite lookup_step.
    destruct (om !! (ast.Ptr o, name)); [|reflexivity].
    pose proof (fieldByName_no_panic o name) as Hf.
    destruct (fieldByName o name) as [nested|e|m]; simpl in Hf; try congruence;
      [|reflexivity].
    destruct (ast.Body nested) as [| | | | | | | | | | | | |? ? localBody| | | |];
      try reflexivity.
    destruct localBody; try reflexivity.
    apply IH. congruence.
Qed.

End objectMapper_lookup.

(** C1: on a path of at least two segments, lookup never panics; a head
    that is not in the index gives the error "field ... does not exist in
    object"; a head that is in the index but whose field body is not a local
    gives "field ... doesn't have local scope", and one whose local body is
    not a desugared object gives "expected body to be an object" -- both
    different from the missing-entry error; a success implies that the head
    is in the index and that the field's body is a local around a desugared
    object, and it is the result of the lookup of the tail in that object. *)
Theorem lookup_deep_path :
  forall (om : token.objectMapper) (o : ast.DesugaredObjectT)
         (name next : string) (rest : list string),
    let path := name :: next :: rest in
    let missing := Errorf "field %s does not exist in object" [ArgS name] in
    is_panic (token.lookup om o path) = false
    /\ (om !! (ast.Ptr o, name) = None -> token.lookup om o path = Fail missing)
    /\ (forall lr field,
          om !! (ast.Ptr o, name) = Some lr ->
          token.fieldByName o name = Return field ->
          match ast.Body field with
          | ast.Local _ _ (ast.DesugaredObject nested) =>
              token.lookup om o path = token.lookup om nested (next :: rest)
          | ast.Local _ _ localBody =>
              token.lookup om o path =
                Fail (Errorf "expected body to be an object; it was %T"
                        [ArgT (ast.TypeName localBody)])
              /\ Errorf "expected body to be an object; it was %T"
                   [ArgT (ast.TypeName localBody)] <> missing
          | _ =>
              token.lookup om o path =
                Fail (Errorf "field %s doesn't have local scope" [ArgS name])
              /\ Errorf "field %s doesn't have local scope" [ArgS name] <> missing
          end)
    /\ (forall loc,
          token.lookup om o path = Return loc ->
          exists lr field lloc binds nested,
            om !! (ast.Ptr o, name) = Some lr
            /\ token.fieldByName o name = Return field
            /\ ast.Body field = ast.Local lloc binds (ast.DesugaredObject nested)
            /\ token.lookup om nested (next :: rest) = Return loc)
    /\ ((exists e, token.lookup om o path = Fail e)
        \/ (exists lr field lloc binds nested,
              om !! (ast.Ptr o, name) = Some lr
              /\ token.fieldByName o name = Return field
              /\ ast.Body field = ast.Local lloc binds (ast.DesugaredObject nested)
              /\ token.lookup om o path = token.lookup om nested (next :: rest))).
Proof.
  intros om o name next rest path missing. subst path missing.
  split; [apply lookup_nonempty_no_panic; congruence|].
  split.
  { intros Hnone. rewrite lookup_step, Hnone. reflexivity. }
  split.
  { intros lr field Hin Hf. rewrite lookup_step, Hin, Hf.
    destruct (ast.Body field) as [| | | | | | | | | | | | |? ? localBody| | | |];
      try (split; [reflexivity | congruence]).
    destruct localBody; try (split; [reflexivity | congruence]).
    reflexivity. }
  assert (Hcases :
    (exists e, token.lookup om o (name :: next :: rest) = Fail e)
    \/ (exists lr field lloc binds nested,
          om !! (ast.Ptr o, name) = Some lr
          /\ token.fieldByName o name = Return field
          /\ ast.Body field = ast.Local lloc binds (ast.DesugaredObject nested)
          /\ token.lookup om o (name :: next :: rest)
             = token.lookup om nested (next :: rest))).
  { rewrite lookup_step.
    destruct (om !! (ast.Ptr o, name)) as [lr|] eqn:Hin; [|left; eauto].
    pose proof (fieldByName_no_panic o name) as Hnp.
    destruct (token.fieldByName o name) as [field|e|m] eqn:Hf;
      [|left; eauto|discriminate Hnp].
    destruct (ast.Body field)
      as [| | | | | | | | | | | | |lloc binds localBody| | | |] eqn:Hb;
      try (left; eauto; fail).
    destruct localBody as [| | | |nested| | | | | | | | | | | | |];
      try (left; eauto; fail).
    right. exists lr, field, lloc, binds, nested. auto. }
  split; [|exact Hcases].
  intros loc Hret.
  destruct Hcases as [[e He]|(lr & field & lloc & binds & nested & H1 & H2 & H3 & H4)];
    [congruence|].
  exists lr, field, lloc, binds, nested. repeat split; congruence.
Qed.

(** The repository's test of the mapper: after [add(o, "a")] and
    [add(nested, "b")], the paths [a] and [a.b] resolve to the name ranges
    1:2-1:3 and 1:6-1:7; a segment that was never added and a scalar field
    used as an object give the two different errors. *)
Example lookup_test_paths :
  token.lookup test_mapper test_object ["a"]
    = Return (jpos.NewLocation "file.jsonnet" (jpos.NewRangeFromCoords 1 2 1 3))
  /\ token.lookup test_mapper test_object ["a"; "b"]
    = Return (jpos.NewLocation "file.jsonnet" (jpos.NewRangeFromCoords 1 6 1 7))
  /\ token.lookup test_mapper test_object ["x"; "b"]
    = Fail (Errorf "field %s does not exist in object" [ArgS "x"])
  /\ token.lookup test_mapper test_object ["a"; "b"; "c"]
    = Fail (Errorf "expected body to be an object; it was %T" [ArgT "*ast.LiteralString"]).
Proof. repeat split; vm_compute; reflexivity. Qed.

(** C9: lookup indexes its path before anything else, so on an empty path
    it panics with an out-of-range index, whatever the index and the object. *)
Theorem lookup_empty_path_panics :
  forall (om : token.objectMapper) (o : ast.DesugaredObjectT),
    token.lookup om o [] = Panic "runtime error: index out of range [0] with length 0"
    /\ is_panic (token.lookup om o []) = true
    /\ is_fail (token.lookup om o []) = false.
Proof. intros om o. repeat split. Qed.

(** ** fieldNameAt (object.go) *)

Lemma fieldNameAt_loop_unique fl pos k loc :
  In (k, loc) fl ->
  jpos.IsInJsonnetRange pos loc = true ->
  (forall k' loc', In (k', loc') fl -> jpos.IsInJsonnetRange pos loc' = true ->
                   k' = k /\ loc' = loc) ->
  token.fieldNameAt_loop fl pos = fieldNameAt_result k loc.
Proof.
  induction fl as [|[k0 loc0] rest IH]; intros Hin Hpos Huniq; [destruct Hin|].
  simpl. destruct (jpos.IsInJsonnetRange pos loc0) eqn:H0.
  - destruct (Huniq k0 loc0 (or_introl eq_refl) H0) as [-> ->]. reflexivity.
  - destruct Hin as [Heq|Hin].
    + inversion Heq; subst. congruence.
    + apply IH; [exact Hin | exact Hpos |].
      intros k' loc' Hin' Hpos'. apply Huniq; [right; exact Hin' | exact Hpos'].
Qed.

(** C4 as stated fails twice.  A computed key that is not a variable (here a
    binary expression) gets the error "invalid field name type", not the
    "unsupported" one; and when the name range of a variable key is also the
    name range of a string key that the iteration meets first, the position
    resolves to that name and range. *)
Lemma fieldNameAt_computed_key_counterexample :
  (In (ast.KeyNode binary_key, test_range 1 2 1 7) (ast.FieldLocs binary_key_object)
   /\ jpos.IsInJsonnetRange (jpos.New 1 3) (test_range 1 2 1 7) = true
   /\ token.fieldNameAt binary_key_object (jpos.New 1 3)
      = ("", jpos.zeroRange,
         Some (Errorf "invalid field name type %T" [ArgT "*ast.Binary"]))
   /\ snd (token.fieldNameAt binary_key_object (jpos.New 1 3)) <> Some unsupported_key)
  /\
  (In (ast.KeyNode (ast.Var None "k"), test_range 1 2 1 5)
      (ast.FieldLocs overlapping_object)
   /\ jpos.IsInJsonnetRange (jpos.New 1 3) (test_range 1 2 1 5) = true
   /\ token.fieldNameAt overlapping_object (jpos.New 1 3)
      = ("a", jpos.NewRangeFromCoords 1 2 1 5, None)).
Proof.
  split.
  - split; [left; reflexivity|]. split; [reflexivity|].
    split; [reflexivity|]. vm_compute. discriminate.
  - split; [right; left; reflexivity|]. split; reflexivity.
Qed.

(** C4, amended: when the position lies inside the recorded name range of
    exactly one entry of FieldLocs, fieldNameAt returns, for a string key,
    that name and range without error; for a variable key, the empty name,
    the zero range and the error "variable keys are unsupported"; for any
    other key, the empty name, the zero range and the error "invalid field
    name type".  The function is total: no panic. *)
Theorem fieldNameAt_in_one_name_range :
  forall (o : ast.DesugaredObjectT) (pos : jpos.Position)
         (k : ast.FieldKey) (loc : ast.LocationRange),
    In (k, loc) (ast.FieldLocs o) ->
    jpos.IsInJsonnetRange pos loc = true ->
    (forall k' loc', In (k', loc') (ast.FieldLocs o) ->
                     jpos.IsInJsonnetRange pos loc' = true -> k' = k /\ loc' = loc) ->
    token.fieldNameAt o pos = fieldNameAt_result k loc
    /\ (forall name, k = ast.KeyString name ->
          token.fieldNameAt o pos = (name, jpos.FromJsonnetRange loc, None))
    /\ (forall vloc id, k = ast.KeyNode (ast.Var vloc id) ->
          token.fieldNameAt o pos = ("", jpos.zeroRange, Some unsupported_key))
    /\ ((forall name, k <> ast.KeyString name) ->
          exists err, token.fieldNameAt o pos = ("", jpos.zeroRange, Some err)).
Proof.
  intros o pos k loc Hin Hpos Huniq.
  assert (H : token.fieldNameAt o pos = fieldNameAt_result k loc)
    by (apply fieldNameAt_loop_unique; assumption).
  split; [exact H|]. split; [|split].
  - intros name ->. exact H.
  - intros vloc id ->. exact H.
  - intros Hns. rewrite H. destruct k as [name| |n]; simpl.
    + destruct (Hns name eq_refl).
    + eexists; reflexivity.
    + destruct n; eexists; reflexivity.
Qed.

Lemma fieldNameAt_in_one_name_range_witness :
  token.fieldNameAt var_key_object (jpos.New 1 3)
    = ("", jpos.zeroRange, Some unsupported_key)
  /\ token.fieldNameAt string_key_object (jpos.New 1 3)
    = ("a", jpos.NewRangeFromCoords 1 2 1 5, None).
Proof.
  split.
  - refine (proj1 (proj2 (proj2
      (fieldNameAt_in_one_name_range var_key_object (jpos.New 1 3)
         (ast.KeyNode (ast.Var None "a")) (test_range 1 2 1 5) _ _ _))) None "a" eq_refl).
    + left; reflexivity.
    + reflexivity.
    + intros k' loc' [Heq|[]] _. inversion Heq. split; reflexivity.
  - refine (proj1 (proj2
      (fieldNameAt_in_one_name_range string_key_object (jpos.New 1 3)
         (ast.KeyString "a") (test_range 1 2 1 5) _ _ _)) "a" eq_refl).
    + left; reflexivity.
    + reflexivity.
    + intros k' loc' [Heq|[]] _. inversion Heq. split; reflexivity.
Defined.

(** ** Hover (lexical.go, hover.go) *)


Example HoverAtLocation_demo :
  lexical.HoverAtLocation _ demo_newHoverVisitor demo_TokenAtLocation demo_Resolve
    "file.jsonnet" "local a=1;a" 2 1 = Return lexical.emptyHover
  /\ lexical.HoverAtLocation _ demo_newHoverVisitor demo_TokenAtLocation demo_Resolve
    "file.jsonnet" "local a=1;a" 1 1 = Return lexical.emptyHover
  /\ lexical.HoverAtLocation _ demo_newHoverVisitor demo_TokenAtLocation demo_Resolve
    "file.jsonnet" "local a=1;a" 1 9 = Fail (errors_New "broken")
  /\ lexical.HoverAtLocation _ demo_newHoverVisitor demo_TokenAtLocation demo_Resolve
    "file.jsonnet" "" 1 1 = Fail (errors_New "no text").
Proof. repeat split. Qed.

Lemma wrap64_small z : in_int64 z -> wrap64 z = z.
Proof.
  unfold in_int64, wrap64. intros H.
  rewrite Z.mod_small; lia.
Qed.




(** ** findLocation2 (locate.go) *)

Lemma strlen_String t rest : strlen (String t rest) = strlen rest + 1.
Proof. unfold strlen. simpl String.length. lia. Qed.

Lemma strlen_nonneg s : 0 <= strlen s.
Proof. unfold strlen. lia. Qed.

(** The loop from index [i] on, with the column still at 1. *)
Lemma findLocation2_loop_spec source :
  forall pos row i,
    0 <= i -> 1 <= row <= i + 1 -> i + strlen source < 2 ^ 63 - 1 ->
    (i <= pos < i + strlen source ->
       locate.findLocation2_loop source pos row 1 i
       = Return (locate.createLoc
                   (row + newlines_in source (Z.to_nat (pos - i + 1))) 1))
    /\ (pos < i \/ i + strlen source <= pos ->
          locate.findLocation2_loop source pos row 1 i
          = Fail (errors_New "position was not in source")).
Proof.
  induction source as [|t rest IH]; intros pos row i Hi Hrow Hlen.
  - split; [unfold strlen; simpl; lia | reflexivity].
  - rewrite strlen_String in *. pose proof (strlen_nonneg rest) as Hn.
    cbn [locate.findLocation2_loop].
    assert (Hi1 : add64 i 1 = i + 1) by (apply wrap64_small; unfold in_int64; lia).
    assert (Hr1 : add64 row 1 = row + 1) by (apply wrap64_small; unfold in_int64; lia).
    rewrite Hi1, Hr1.
    set (d := if Ascii.eqb t locate.newline then 1 else 0).
    assert (Hd : 0 <= d <= 1) by (subst d; destruct (Ascii.eqb t locate.newline); lia).
    assert (Hpair : (if Ascii.eqb t locate.newline then (row + 1, 1) else (row, 1))
                    = (row + d, 1)).
    { subst d. destruct (Ascii.eqb t locate.newline); f_equal; lia. }
    rewrite Hpair.
    destruct (IH pos (row + d) (i + 1)) as [IHin IHout]; [lia | lia | lia |].
    split.
    + intros Hpos. destruct (Z.eqb_spec pos i) as [->|Hne].
      * replace (i - i + 1) with 1 by lia. change (Z.to_nat 1) with 1%nat.
        cbn [newlines_in]. fold d.
        replace (newlines_in rest 0) with 0 by (destruct rest; reflexivity).
        do 2 f_equal. lia.
      * rewrite IHin by lia.
        replace (Z.to_nat (pos - i + 1)) with (S (Z.to_nat (pos - (i + 1) + 1))) by lia.
        cbn [newlines_in]. fold d. do 2 f_equal. lia.
    + intros Hpos. destruct (Z.eqb_spec pos i) as [->|Hne]; [lia|].
      apply IHout. lia.
Qed.

(** C10: findLocation2 never advances the column.  For every byte offset
    inside the source the location it returns has column 1, and its row is
    1 plus the number of newlines up to and including that offset; for an
    offset at or past the end (or a negative one) it returns the error
    "position was not in source".  No case panics. *)
Theorem findLocation2_column_is_one :
  forall (source : string) (pos : Z),
    strlen source < 2 ^ 63 - 1 ->
    (0 <= pos < strlen source ->
       locate.findLocation2 source pos
       = Return (locate.createLoc
                   (1 + newlines_in source (Z.to_nat (pos + 1))) 1)
       /\ exists loc, locate.findLocation2 source pos = Return loc
                      /\ ast.Column loc = 1)
    /\ (strlen source <= pos \/ pos < 0 ->
          locate.findLocation2 source pos
          = Fail (errors_New "position was not in source"))
    /\ is_panic (locate.findLocation2 source pos) = false.
Proof.
  intros source pos Hlen. unfold locate.findLocation2.
  destruct (findLocation2_loop_spec source pos 1 0) as [Hin Hout]; [lia | lia | lia |].
  assert (A : 0 <= pos < strlen source ->
              locate.findLocation2_loop source pos 1 1 0
              = Return (locate.createLoc
                          (1 + newlines_in source (Z.to_nat (pos + 1))) 1)).
  { intros Hpos. rewrite Hin by lia. replace (pos - 0 + 1) with (pos + 1) by lia.
    reflexivity. }
  assert (B : strlen source <= pos \/ pos < 0 ->
              locate.findLocation2_loop source pos 1 1 0
              = Fail (errors_New "position was not in source")).
  { intros Hpos. apply Hout. lia. }
  split; [|split].
  - intros Hpos. split; [exact (A Hpos)|].
    eexists. split; [exact (A Hpos) | reflexivity].
  - exact B.
  - destruct (Z_lt_le_dec pos 0) as [Hneg|Hnn].
    + rewrite B by lia. reflexivity.
    + destruct (Z_lt_le_dec pos (strlen source)) as [Hlt|Hge].
      * rewrite A by lia. reflexivity.
      * rewrite B by lia. reflexivity.
Qed.

(** In ["ab\ncd"] the offset 4 is the [d] in column 2 of line 2; the result
    is line 2, column 1.  The offset 5 is past the end. *)
Lemma findLocation2_column_is_one_witness :
  (locate.findLocation2 (String "a" (String "b" (String locate.newline "cd"))) 4
   = Return (locate.createLoc 2 1))
  /\ locate.findLocation2 (String "a" (String "b" (String locate.newline "cd"))) 5
     = Fail (errors_New "position was not in source").
Proof.
  pose proof (findLocation2_column_is_one
                (String "a" (String "b" (String locate.newline "cd"))) 4) as H4.
  pose proof (findLocation2_column_is_one
                (String "a" (String "b" (String locate.newline "cd"))) 5) as H5.
  split.
  - refine (proj1 (proj1 (H4 _) _)); vm_compute; intuition congruence.
  - refine (proj1 (proj2 (H5 _)) _); [vm_compute; reflexivity|].
    left. vm_compute. congruence.
Defined.

(** ** The rebuild watcher (handler.go) *)

(** What the loop sends, by the first two events it receives. *)
Lemma updateNodeCache_sent path file events :
  server.timer_one_shot events ->
  server.notifications (fst (server.updateNodeCache (inl path) file events))
  = match events with
    | server.EvTimer :: server.EvDone :: _ => [server.running file; server.complete file]
    | server.EvTimer :: _ => [server.running file]
    | _ => []
    end.
Proof.
  intros Hone. unfold server.updateNodeCache.
  destruct events as [|[err| |] [|[err'| |] rest]]; try reflexivity.
  exfalso. unfold server.timer_one_shot in Hone. simpl in Hone. lia.
Qed.

(** C5: the select loop of updateNodeCache, on the events in the order it
    receives them, the timer delivering one tick.  If the rebuild's result
    (done or an error) is received before the tick, no notification is sent.
    If the tick is received first, one "is running" notification is sent;
    the "is complete" notification is sent exactly when done is received
    after that tick; "is running" is never sent twice. *)
Theorem updateNodeCache_notifications :
  forall (path file : string) (events : list server.Event),
    server.timer_one_shot events ->
    let sent := server.notifications
                  (fst (server.updateNodeCache (inl path) file events)) in
    (forall rest, events = server.EvDone :: rest -> sent = [])
    /\ (forall err rest, events = server.EvErr err :: rest -> sent = [])
    /\ (events = [] -> sent = [])
    /\ (forall rest, events = server.EvTimer :: rest ->
          exists later, sent = server.running file :: later
                        /\ (later = [] \/ later = [server.complete file]))
    /\ (In (server.complete file) sent <->
          exists rest, events = server.EvTimer :: server.EvDone :: rest)
    /\ (length (List.filter server.is_running sent) <= 1)%nat.
Proof.
  intros path file events Hone sent. subst sent.
  rewrite (updateNodeCache_sent path file events Hone).
  split; [intros rest ->; reflexivity|].
  split; [intros err rest ->; reflexivity|].
  split; [intros ->; reflexivity|].
  split; [|split].
  - intros rest ->. destruct rest as [|[err| |] rest'];
      eexists; (split; [reflexivity|]); auto.
  - split.
    + destruct events as [|[err| |] [|[err'| |] rest]]; simpl;
        try (intros []; fail); try (intros [H|[]]; discriminate H).
      intros _. exists rest. reflexivity.
    + intros [rest ->]. right. left. reflexivity.
  - destruct events as [|[err| |] [|[err'| |] rest]]; simpl; lia.
Qed.

(** A rebuild that takes longer than the timer: tick, then done. *)
Lemma updateNodeCache_notifications_witness :
  In (server.complete "a.jsonnet")
     (server.notifications
        (fst (server.updateNodeCache (inl "/tmp/a.jsonnet") "a.jsonnet"
                [server.EvTimer; server.EvDone]))).
Proof.
  refine (proj2 (proj1 (proj2 (proj2 (proj2 (proj2
    (updateNodeCache_notifications "/tmp/a.jsonnet" "a.jsonnet"
       [server.EvTimer; server.EvDone] _)))))) _).
  - unfold server.timer_one_shot. simpl. lia.
  - exists []. reflexivity.
Defined.

Example updateNodeCache_runs :
  server.notifications
    (fst (server.updateNodeCache (inl "/tmp/a.jsonnet") "a.jsonnet" [server.EvDone]))
    = []
  /\ server.notifications
       (fst (server.updateNodeCache (inl "/tmp/a.jsonnet") "a.jsonnet"
               [server.EvTimer; server.EvDone]))
     = [server.running "a.jsonnet"; server.complete "a.jsonnet"]
  /\ server.notifications
       (fst (server.updateNodeCache (inl "/tmp/a.jsonnet") "a.jsonnet"
               [server.EvTimer; server.EvErr (errors_New "parse")]))
     = [server.running "a.jsonnet"].
Proof. repeat split. Qed.

(** ** Switches over node kinds (locate.go, highlight.go, handler.go) *)



(** ** The scope at a position *)









(** ** Index extraction for completion (completion handler) *)

Section index_extraction.

Import go_regexp.

Lemma lang_Cat_inv a b s :
  lang (Cat a b) s -> exists s1 s2, s = (s1 ++ s2)%string /\ lang a s1 /\ lang b s2.
Proof. intros H. inversion H; subst. eauto. Qed.

Lemma lang_Alt_inv a b s : lang (Alt a b) s -> lang a s \/ lang b s.
Proof. intros H. inversion H; subst; auto. Qed.

Lemma lang_Class_inv p s :
  lang (Class p) s -> exists c, s = String c EmptyString /\ p c = true.
Proof. intros H. inversion H; subst. eauto. Qed.

Lemma str_append_nil_l (s : string) : (EmptyString ++ s)%string = s.
Proof. reflexivity. Qed.

Lemma str_append_String c (s1 s2 : string) :
  (String c s1 ++ s2)%string = String c (s1 ++ s2).
Proof. reflexivity. Qed.

Lemma string_app_nil (s1 s2 : string) :
  (s1 ++ s2)%string = EmptyString -> s1 = EmptyString /\ s2 = EmptyString.
Proof.
  destruct s1; [rewrite str_append_nil_l; auto | rewrite str_append_String; discriminate].
Qed.

Lemma nullable_lang r : nullable r = true <-> lang r EmptyString.
Proof.
  induction r as [| |p|a IHa b IHb|a IHa b IHb|a IHa]; simpl.
  - split; [discriminate | intros H; inversion H].
  - split; [constructor | reflexivity].
  - split; [discriminate | intros H; inversion H].
  - rewrite orb_true_iff, IHa, IHb. split.
    + intros [H|H]; [apply lang_Alt_l | apply lang_Alt_r]; exact H.
    + apply lang_Alt_inv.
  - rewrite andb_true_iff, IHa, IHb. split.
    + intros [H1 H2]. exact (lang_Cat a b EmptyString EmptyString H1 H2).
    + intros H. destruct (lang_Cat_inv _ _ _ H) as (s1 & s2 & Heq & H1 & H2).
      symmetry in Heq. destruct (string_app_nil s1 s2 Heq) as [-> ->]. auto.
  - split; [constructor | reflexivity].
Qed.

(** A non-empty word of a star starts with a non-empty word of the body. *)
Lemma lang_Star_String a c s :
  lang (Star a) (String c s) ->
  exists s1 s2, s = (s1 ++ s2)%string /\ lang a (String c s1) /\ lang (Star a) s2.
Proof.
  intros H. remember (Star a) as r eqn:Hr. remember (String c s) as w eqn:Hw.
  revert Hr Hw.
  induction H as [| | | | | |a' s1 s2 H1 _ H2 IH2]; intros Hr Hw; try discriminate.
  inversion Hr; subst a'. destruct s1 as [|c1 s1'].
  - rewrite str_append_nil_l in Hw. apply IH2; [reflexivity | exact Hw].
  - rewrite str_append_String in Hw. inversion Hw; subst. exists s1', s2. auto.
Qed.

Lemma deriv_lang c r : forall s, lang (deriv c r) s <-> lang r (String c s).
Proof.
  induction r as [| |p|a IHa b IHb|a IHa b IHb|a IHa]; intros s; simpl.
  - split; intros H; inversion H.
  - split; intros H; inversion H.
  - destruct (p c) eqn:Hp; split; intros H.
    + inversion H; subst. constructor. exact Hp.
    + destruct (lang_Class_inv _ _ H) as (c' & Heq & _). inversion Heq. constructor.
    + inversion H.
    + destruct (lang_Class_inv _ _ H) as (c' & Heq & Hp'). inversion Heq; subst.
      congruence.
  - split; intros H; destruct (lang_Alt_inv _ _ _ H) as [H'|H'];
      (apply lang_Alt_l, IHa, H') || (apply lang_Alt_r, IHb, H').
  - assert (Hc : lang (Cat (deriv c a) b) s -> lang (Cat a b) (String c s)).
    { intros H. destruct (lang_Cat_inv _ _ _ H) as (s1 & s2 & -> & H1 & H2).
      apply IHa in H1. exact (lang_Cat a b (String c s1) s2 H1 H2). }
    assert (Hd : lang (Cat a b) (String c s) ->
                 lang (Cat (deriv c a) b) s
                 \/ (lang a EmptyString /\ lang b (String c s))).
    { intros H. destruct (lang_Cat_inv _ _ _ H) as (s1 & s2 & Heq & H1 & H2).
      destruct s1 as [|c1 s1'].
      - rewrite str_append_nil_l in Heq. right. subst s2. auto.
      - rewrite str_append_String in Heq. inversion Heq; subst. left.
        constructor; [apply IHa; exact H1 | exact H2]. }
    destruct (nullable a) eqn:Hn.
    + split; intros H.
      * destruct (lang_Alt_inv _ _ _ H) as [H'|H']; [apply Hc; exact H'|].
        apply nullable_lang in Hn.
        exact (lang_Cat a b EmptyString (String c s) Hn (proj1 (IHb s) H')).
      * destruct (Hd H) as [H'|[_ H']]; [apply lang_Alt_l; exact H'|].
        apply lang_Alt_r, IHb, H'.
    + split; [exact Hc|]. intros H. destruct (Hd H) as [H'|[H' _]]; [exact H'|].
      apply nullable_lang in H'. congruence.
  - split; intros H.
    + destruct (lang_Cat_inv _ _ _ H) as (s1 & s2 & -> & H1 & H2).
      apply IHa in H1. exact (lang_Star_cons a (String c s1) s2 H1 H2).
    + destruct (lang_Star_String a c s H) as (s1 & s2 & -> & H1 & H2).
      constructor; [apply IHa; exact H1 | exact H2].
Qed.

Lemma matches_lang s : forall r, matches r s = true <-> lang r s.
Proof.
  induction s as [|c s IH]; intros r; simpl.
  - apply nullable_lang.
  - rewrite IH. apply deriv_lang.
Qed.

Lemma all_chars_app p (s1 s2 : string) :
  all_chars p (s1 ++ s2) = all_chars p s1 && all_chars p s2.
Proof.
  induction s1 as [|c s1 IH]; [reflexivity|].
  rewrite str_append_String. simpl. rewrite IH, andb_assoc. reflexivity.
Qed.

Lemma lang_Plus_all p s : lang (Plus (Class p)) s -> all_chars p s = true /\ s <> "".
Proof.
  assert (Hstar : forall s, lang (Star (Class p)) s -> all_chars p s = true).
  { intros s0 H. remember (Star (Class p)) as r eqn:Hr. revert Hr.
    induction H as [| | | | | |a s1 s2 H1 _ H2 IH2]; intros Hr; try discriminate;
      [reflexivity|].
    inversion Hr; subst a.
    destruct (lang_Class_inv _ _ H1) as (c & -> & Hc).
    rewrite str_append_String, str_append_nil_l. simpl. rewrite Hc, IH2; auto. }
  intros H. destruct (lang_Cat_inv _ _ _ H) as (s1 & s2 & -> & H1 & H2).
  destruct (lang_Class_inv _ _ H1) as (c & -> & Hc).
  rewrite str_append_String, str_append_nil_l. simpl. rewrite Hc, (Hstar _ H2).
  split; [reflexivity | discriminate].
Qed.

Lemma lang_Star_all (p : ascii -> bool) a :
  (forall s, lang a s -> all_chars p s = true) ->
  forall s, lang (Star a) s -> all_chars p s = true.
Proof.
  intros Ha s H. remember (Star a) as r eqn:Hr. revert Hr.
  induction H as [| | | | | |a' s1 s2 H1 _ H2 IH2]; intros Hr; try discriminate;
    [reflexivity|].
  inversion Hr; subst a'. rewrite all_chars_app, (Ha _ H1), IH2; auto.
Qed.

Lemma all_chars_weaken (p q : ascii -> bool) s :
  (forall c, p c = true -> q c = true) -> all_chars p s = true -> all_chars q s = true.
Proof.
  intros Hpq. induction s as [|c s IH]; simpl; [auto|].
  rewrite !andb_true_iff. intros [H1 H2]. auto.
Qed.

Lemma path_shape_closers s : all_chars server.closer_char s = true -> path_shape s = true.
Proof.
  induction s as [|c s IH]; [reflexivity|]. intros H. simpl.
  destruct (word_or_dot c); [|exact H].
  simpl in H. apply andb_true_iff in H. apply IH, H.
Qed.

Lemma path_shape_app (b c : string) :
  all_chars word_or_dot b = true -> all_chars server.closer_char c = true ->
  path_shape (b ++ c) = true.
Proof.
  induction b as [|x b IH]; intros Hb Hc.
  - rewrite str_append_nil_l. apply path_shape_closers, Hc.
  - rewrite str_append_String. simpl in *. apply andb_true_iff in Hb as [Hx Hb].
    rewrite Hx. auto.
Qed.

(** Every text the pattern matches has the path shape. *)
Lemma lang_reIndex_shape s : lang server.reIndex s -> path_shape s = true.
Proof.
  unfold server.reIndex. intros H.
  destruct (lang_Cat_inv _ _ _ H) as (s123 & s4 & -> & H123 & H4).
  destruct (lang_Cat_inv _ _ _ H123) as (s12 & s3 & -> & H12 & H3).
  destruct (lang_Cat_inv _ _ _ H12) as (s1 & s2 & -> & H1 & H2).
  destruct (lang_Class_inv _ _ H3) as (d & -> & Hd).
  assert (Hw : forall c, word_char c = true -> word_or_dot c = true)
    by (intros c Hc; unfold word_or_dot; rewrite Hc; reflexivity).
  assert (Hdot : word_or_dot d = true).
  { unfold word_or_dot. unfold server.is_char in Hd.
    apply Ascii.eqb_eq in Hd. subst d. apply orb_true_r. }
  apply path_shape_app.
  - rewrite !all_chars_app. simpl. rewrite Hdot.
    rewrite (all_chars_weaken _ _ _ Hw (proj1 (lang_Plus_all _ _ H2))).
    rewrite (lang_Star_all word_or_dot
               (Cat (Plus (Class word_char)) (Class (server.is_char "."))))
      with (s := s1); [reflexivity| |exact H1].
    intros s H'. destruct (lang_Cat_inv _ _ _ H') as (t1 & t2 & -> & Ht1 & Ht2).
    destruct (lang_Class_inv _ _ Ht2) as (d' & -> & Hd').
    rewrite all_chars_app. simpl.
    rewrite (all_chars_weaken _ _ _ Hw (proj1 (lang_Plus_all _ _ Ht1))).
    unfold server.is_char in Hd'. apply Ascii.eqb_eq in Hd'. subst d'. reflexivity.
  - apply (lang_Star_all server.closer_char (Class server.closer_char));
      [|exact H4].
    intros s H'. destruct (lang_Class_inv _ _ H') as (c & -> & Hc).
    simpl. rewrite Hc. reflexivity.
Qed.

Lemma word_not_closer c : word_char c = true -> server.closer_char c = false.
Proof.
  destruct c as [[] [] [] [] [] [] [] []]; intros H; try discriminate H; reflexivity.
Qed.

Lemma word_not_dot c : word_char c = true -> Ascii.eqb c go_strings.dot = false.
Proof.
  destruct c as [[] [] [] [] [] [] [] []]; intros H; try discriminate H; reflexivity.
Qed.

Lemma closer_not_dot c : server.closer_char c = true -> Ascii.eqb c go_strings.dot = false.
Proof.
  destruct c as [[] [] [] [] [] [] [] []]; intros H; try discriminate H; reflexivity.
Qed.

(** A byte that is neither word character nor dot, followed by a word
    character, breaks the path shape. *)
Lemma path_shape_break (p : string) x y r :
  word_or_dot x = false -> word_char y = true ->
  path_shape (p ++ String x (String y r)) = false.
Proof.
  intros Hx Hy. pose proof (word_not_closer y Hy) as Hcl.
  assert (Hall : forall q : string,
             all_chars server.closer_char (q ++ String x (String y r)) = false).
  { intros q. rewrite all_chars_app. simpl. rewrite Hcl.
    rewrite andb_false_r, andb_false_r. reflexivity. }
  induction p as [|c p IH].
  - rewrite str_append_nil_l. simpl path_shape. rewrite Hx.
    exact (Hall EmptyString).
  - rewrite str_append_String. simpl path_shape. destruct (word_or_dot c); [exact IH|].
    exact (Hall (String c p)).
Qed.

Lemma is_segment_inv w :
  is_segment w = true ->
  exists y r, w = String y r /\ word_char y = true /\ all_chars word_char r = true.
Proof.
  unfold is_segment. destruct w as [|y r]; [discriminate|]. simpl.
  intros H. apply andb_true_iff in H. eauto.
Qed.

Lemma lang_Plus_word w : is_segment w = true -> lang (Plus (Class word_char)) w.
Proof.
  intros H. destruct (is_segment_inv w H) as (y & r & -> & Hy & Hr).
  change (String y r) with (String y EmptyString ++ r).
  apply lang_Cat; [constructor; exact Hy|].
  clear H Hy. induction r as [|c r IH]; [constructor|].
  simpl in Hr. apply andb_true_iff in Hr as [Hc Hr].
  change (String c r) with (String c EmptyString ++ r).
  apply lang_Star_cons; [constructor; exact Hc | apply IH, Hr].
Qed.

Lemma lang_Star_closers cs :
  all_chars server.closer_char cs = true -> lang (Star (Class server.closer_char)) cs.
Proof.
  induction cs as [|c r IH]; intros H; [constructor|].
  simpl in H. apply andb_true_iff in H as [Hc Hr].
  change (String c r) with (String c EmptyString ++ r).
  apply lang_Star_cons; [constructor; exact Hc | apply IH, Hr].
Qed.

Lemma str_append_assoc (a b c : string) : (a ++ b) ++ c = a ++ (b ++ c).
Proof.
  induction a as [|x a IH]; [reflexivity|].
  rewrite !str_append_String, IH. reflexivity.
Qed.

Lemma str_append_nil_r (a : string) : a ++ "" = a.
Proof. induction a as [|x a IH]; [reflexivity|]. rewrite str_append_String, IH. reflexivity. Qed.

Lemma lang_dot : lang (Class (server.is_char ".")) (String go_strings.dot "").
Proof. constructor. reflexivity. Qed.

(** [dotted ws] is a run of groups followed by one more segment and its dot. *)
Lemma lang_dotted ws :
  ws <> [] -> Forall (fun w => is_segment w = true) ws ->
  exists s1 w, dotted ws = s1 ++ (w ++ String go_strings.dot "")
               /\ lang (Star reIndex_group) s1 /\ is_segment w = true.
Proof.
  induction ws as [|w ws IH]; intros Hne Hall; [congruence|].
  inversion Hall as [|w' ws' Hw Hws]; subst.
  destruct ws as [|w2 ws2].
  - exists "", w. simpl. repeat split; [constructor | exact Hw].
  - destruct IH as (s1 & wl & Heq & Hs1 & Hwl); [congruence | exact Hws|].
    exists ((w ++ String go_strings.dot "") ++ s1), wl.
    split; [|split; [|exact Hwl]].
    + change (dotted (w :: w2 :: ws2)) with (w ++ String go_strings.dot (dotted (w2 :: ws2))).
      rewrite Heq. rewrite !str_append_assoc. reflexivity.
    + apply lang_Star_cons; [|exact Hs1].
      apply lang_Cat; [apply lang_Plus_word, Hw | apply lang_dot].
Qed.

Lemma matches_reIndex_path ws cs :
  ws <> [] -> Forall (fun w => is_segment w = true) ws ->
  all_chars server.closer_char cs = true ->
  matches server.reIndex (dotted ws ++ cs) = true.
Proof.
  intros Hne Hall Hcs. apply matches_lang.
  destruct (lang_dotted ws Hne Hall) as (s1 & w & -> & Hs1 & Hw).
  unfold server.reIndex. apply lang_Cat; [|apply lang_Star_closers, Hcs].
  rewrite <- str_append_assoc.
  apply lang_Cat; [|apply lang_dot].
  apply lang_Cat; [exact Hs1 | apply lang_Plus_word, Hw].
Qed.

Lemma ends_free_split p :
  p <> "" -> ends_free p = true ->
  exists q x, p = q ++ String x "" /\ word_or_dot x = false.
Proof.
  induction p as [|c p IH]; intros Hne H; [congruence|].
  destruct p as [|c2 p2].
  - exists "", c. split; [reflexivity|]. simpl in H. apply negb_true_iff, H.
  - destruct IH as (q & x & Heq & Hx); [discriminate | exact H|].
    exists (String c q), x. rewrite str_append_String, <- Heq. auto.
Qed.

Lemma ends_free_tail c p : ends_free (String c p) = true -> ends_free p = true.
Proof. destruct p; [reflexivity | exact (fun H => H)]. Qed.

(** The leftmost match skips a prefix that cannot take part in a path. *)
Lemma FindAllString_skips_prefix (p m : string) y r :
  ends_free p = true -> m = String y r -> word_char y = true ->
  matches server.reIndex m = true ->
  FindAllString_1_anchored server.reIndex (p ++ m) = [m].
Proof.
  intros Hp -> Hy Hm. induction p as [|c p IH].
  - rewrite str_append_nil_l.
    change (FindAllString_1_anchored server.reIndex (String y r))
      with (if matches server.reIndex (String y r) then [String y r]
            else FindAllString_1_anchored server.reIndex r).
    rewrite Hm. reflexivity.
  - rewrite str_append_String.
    change (FindAllString_1_anchored server.reIndex (String c (p ++ String y r)))
      with (if matches server.reIndex (String c (p ++ String y r))
            then [String c (p ++ String y r)]
            else FindAllString_1_anchored server.reIndex (p ++ String y r)).
    destruct (matches server.reIndex (String c (p ++ String y r))) eqn:Hmatch.
    + exfalso. apply matches_lang, lang_reIndex_shape in Hmatch.
      destruct (ends_free_split (String c p)) as (q & x & Heq & Hx);
        [discriminate | exact Hp|].
      rewrite <- str_append_String, Heq, str_append_assoc, str_append_String, str_append_nil_l in Hmatch.
      rewrite (path_shape_break q x y r Hx Hy) in Hmatch. discriminate.
    + apply IH. exact (ends_free_tail c p Hp).
Qed.

Lemma Split_dot_no_dot s : all_chars not_dot s = true -> go_strings.Split_dot s = [s].
Proof.
  induction s as [|c s IH]; [reflexivity|]. simpl. unfold not_dot at 1.
  intros H. apply andb_true_iff in H as [Hc Hs]. apply negb_true_iff in Hc.
  rewrite Hc, (IH Hs). reflexivity.
Qed.

Lemma Split_dot_piece (w rest : string) :
  all_chars not_dot w = true ->
  go_strings.Split_dot (w ++ String go_strings.dot rest)
  = w :: go_strings.Split_dot rest.
Proof.
  induction w as [|c w IH]; intros H.
  - rewrite str_append_nil_l. reflexivity.
  - rewrite str_append_String. simpl in H. apply andb_true_iff in H as [Hc Hw].
    unfold not_dot in Hc. apply negb_true_iff in Hc.
    simpl go_strings.Split_dot. rewrite Hc, (IH Hw). reflexivity.
Qed.

Lemma segment_no_dot w : is_segment w = true -> all_chars not_dot w = true.
Proof.
  unfold is_segment. intros H. apply andb_true_iff in H as [_ H].
  apply (all_chars_weaken word_char); [|exact H].
  intros c Hc. unfold not_dot. rewrite (word_not_dot c Hc). reflexivity.
Qed.

Lemma Split_dot_dotted ws cs :
  Forall (fun w => is_segment w = true) ws ->
  all_chars server.closer_char cs = true ->
  go_strings.Split_dot (dotted ws ++ cs) = (ws ++ [cs])%list.
Proof.
  intros Hall Hcs. induction Hall as [|w ws Hw _ IH].
  - rewrite str_append_nil_l. apply Split_dot_no_dot.
    apply (all_chars_weaken server.closer_char); [|exact Hcs].
    intros c Hc. unfold not_dot. rewrite (closer_not_dot c Hc). reflexivity.
  - simpl dotted. rewrite str_append_assoc, str_append_String.
    rewrite (Split_dot_piece w _ (segment_no_dot w Hw)), IH. reflexivity.
Qed.

Lemma segment_kept w :
  is_segment w = true ->
  negb (String.eqb w "") = true
  /\ negb (server.stringInSlice w server.ignoredIndexItems) = true.
Proof.
  intros H. destruct (is_segment_inv w H) as (y & r & -> & Hy & _).
  split; [reflexivity|].
  destruct y as [[] [] [] [] [] [] [] []]; try discriminate Hy; reflexivity.
Qed.

Lemma removeEmpty_segments ws tail :
  Forall (fun w => is_segment w = true) ws ->
  server.removeEmpty (ws ++ tail)%list = (ws ++ server.removeEmpty tail)%list.
Proof.
  intros Hall. induction Hall as [|w ws Hw _ IH]; [reflexivity|].
  destruct (segment_kept w Hw) as [H1 H2].
  rewrite <- app_comm_cons. cbn [server.removeEmpty].
  rewrite H1, H2, IH. reflexivity.
Qed.

Lemma removeEmpty_closer cs :
  at_most_one_closer cs = true -> server.removeEmpty [cs] = [].
Proof.
  destruct cs as [|c [|c2 r]]; try discriminate; [reflexivity|].
  simpl at_most_one_closer.
  destruct c as [[] [] [] [] [] [] [] []]; intros H; try discriminate H; reflexivity.
Qed.

Lemma at_most_one_closer_all cs :
  at_most_one_closer cs = true -> all_chars server.closer_char cs = true.
Proof.
  destruct cs as [|c [|c2 r]]; try discriminate; [reflexivity|].
  simpl. intros ->. reflexivity.
Qed.

Lemma dotted_starts_with_word ws cs :
  ws <> [] -> Forall (fun w => is_segment w = true) ws ->
  exists y r, dotted ws ++ cs = String y r /\ word_char y = true.
Proof.
  intros Hne Hall. destruct ws as [|w ws]; [congruence|].
  inversion Hall as [|w' ws' Hw _]; subst.
  destruct (is_segment_inv w Hw) as (y & r & -> & Hy & _).
  simpl dotted. rewrite !str_append_String. eauto.
Qed.

(** For a text that ends in a dotted path, its dot and at most one closer,
    after a prefix that is empty or ends in a byte that cannot belong to a
    path, resolveIndex returns the segments of the path. *)
Theorem resolveIndex_path :
  forall (p : string) (ws : list string) (cs : string),
    ws <> [] ->
    Forall (fun w => is_segment w = true) ws ->
    at_most_one_closer cs = true ->
    ends_free p = true ->
    server.resolveIndex (p ++ (dotted ws ++ cs)) = Return ws.
Proof.
  intros p ws cs Hne Hall Hcs Hp.
  pose proof (at_most_one_closer_all cs Hcs) as Hcl.
  destruct (dotted_starts_with_word ws cs Hne Hall) as (y & r & Heq & Hy).
  unfold server.resolveIndex.
  rewrite (FindAllString_skips_prefix p (dotted ws ++ cs) y r Hp Heq Hy
             (matches_reIndex_path ws cs Hne Hall Hcl)).
  rewrite (Split_dot_dotted ws cs Hall Hcl).
  rewrite (removeEmpty_segments ws [cs] Hall), (removeEmpty_closer cs Hcs).
  rewrite app_nil_r. reflexivity.
Qed.

(** With two or more closers the closers stay in the result. *)
Theorem resolveIndex_path_closers :
  forall (p : string) (ws : list string) (cs : string),
    ws <> [] ->
    Forall (fun w => is_segment w = true) ws ->
    all_chars server.closer_char cs = true ->
    (2 <= String.length cs)%nat ->
    ends_free p = true ->
    server.resolveIndex (p ++ (dotted ws ++ cs)) = Return (ws ++ [cs])%list.
Proof.
  intros p ws cs Hne Hall Hcl Hlen Hp.
  destruct (dotted_starts_with_word ws cs Hne Hall) as (y & r & Heq & Hy).
  unfold server.resolveIndex.
  rewrite (FindAllString_skips_prefix p (dotted ws ++ cs) y r Hp Heq Hy
             (matches_reIndex_path ws cs Hne Hall Hcl)).
  rewrite (Split_dot_dotted ws cs Hall Hcl).
  rewrite (removeEmpty_segments ws [cs] Hall). f_equal. f_equal.
  destruct cs as [|c [|c2 r2]]; simpl in Hlen; try lia.
  simpl in Hcl. apply andb_true_iff in Hcl as [Hc _].
  destruct c as [[] [] [] [] [] [] [] []]; try discriminate Hc; reflexivity.
Qed.

End index_extraction.

(** C3: on the spec's truncated document and with a single trailing closer
    resolveIndex returns the path segments, and without a dotted path before
    the cursor it returns an error; but with two trailing closers the closers
    stay in the result as a last segment, because removeEmpty only drops a
    piece that is exactly one closer. *)
Theorem resolveIndex_trailing_closers :
  server.resolveIndex "local o={a:9}; o." = Return ["o"]
  /\ server.resolveIndex "f(o.a.b.)" = Return ["o"; "a"; "b"]
  /\ server.resolveIndex "local o={a:9}; o"
     = Fail (Errorf "%q does not contain an index" [ArgQ "local o={a:9}; o"])
  /\ server.resolveIndex "[f(o.a.)]" = Return ["o"; "a"; ")]"]
  /\ server.resolveIndex "{x: f(o.a.b.)}" = Return ["o"; "a"; "b"; ")}"].
Proof. repeat split; vm_compute; reflexivity. Qed.

(** * Further properties *)

(** ** The object mapper and the field helpers (object.go) *)

(** The repository's path-to-location test: inside the nested object the
    path has two segments; on a parameter of a function field the range is
    the parameter's. *)
Example pathToLocation_test_paths :
  token.pathToLocation path_test_object (jpos.New 1 5)
    = Return (token.mkObjectPath ["a"; "b"] (jpos.NewRangeFromCoords 1 5 1 6)
                ast.Nil None)
  /\ token.opPath <$> (match token.pathToLocation path_test_object (jpos.New 1 2) with
                       | Return op => Some op | _ => None end) = Some ["a"]
  /\ (match token.pathToLocation function_field_object (jpos.New 1 5) with
      | Return op => Some (token.opPath op, token.opLoc op, token.opRequiredID op)
      | _ => None
      end) = Some (["id"], jpos.NewRangeFromCoords 1 5 1 6, Some "y").
Proof. repeat split. Qed.

Lemma lookup_single om o name :
  token.lookup om o [name] =
  match om !! (ast.Ptr o, name) with
  | None => Fail (Errorf "field %s does not exist in object" [ArgS name])
  | Some lr => Return (jpos.LocationFromJsonnet lr)
  end.
Proof. reflexivity. Qed.

(** add followed by lookup: add succeeds exactly when the name is a string
    key of the object's FieldLocs, and then the one-segment lookup of that
    name returns the recorded range; when add fails the index is unchanged. *)
Theorem add_then_lookup :
  forall (om : token.objectMapper) (o : ast.DesugaredObjectT) (name : string),
    (forall loc,
        token.FieldLocs_get (ast.FieldLocs o) name = Some loc ->
        snd (token.add om o name) = None
        /\ token.lookup (fst (token.add om o name)) o [name]
           = Return (jpos.LocationFromJsonnet loc))
    /\ (token.FieldLocs_get (ast.FieldLocs o) name = None ->
        token.add om o name
        = (om, Some (Errorf "could not find location for field %s" [ArgS name])))
    /\ (snd (token.add om o name) = None <->
        exists loc, token.FieldLocs_get (ast.FieldLocs o) name = Some loc).
Proof.
  intros om o name. unfold token.add.
  destruct (token.FieldLocs_get (ast.FieldLocs o) name) as [loc|] eqn:Hget.
  - split; [|split].
    + intros loc' Heq. inversion Heq; subst loc'. split; [reflexivity|].
      rewrite lookup_single. cbn [fst]. unfold token.objectMapper in *.
      rewrite lookup_insert_eq. reflexivity.
    + discriminate.
    + split; [eauto | reflexivity].
  - split; [|split].
    + discriminate.
    + reflexivity.
    + split; [discriminate | intros [loc H]; discriminate].
Qed.

(** Adding a field that is not yet in the index keeps every lookup that
    succeeded before, for every object and every path. *)
Theorem add_keeps_lookups :
  forall (om : token.objectMapper) (o : ast.DesugaredObjectT) (name : string)
         (path : list string) (o2 : ast.DesugaredObjectT) (loc : jpos.Location),
    om !! (ast.Ptr o, name) = None ->
    token.lookup om o2 path = Return loc ->
    token.lookup (fst (token.add om o name)) o2 path = Return loc.
Proof.
  intros om o name path o2 loc Hfresh. unfold token.add.
  destruct (token.FieldLocs_get (ast.FieldLocs o) name) as [lr|]; [|auto].
  cbn [fst]. revert o2.
  induction path as [|seg path IH]; intros o2 H; [simpl in H; discriminate H|].
  assert (Hkey : forall lr2, om !! (ast.Ptr o2, seg) = Some lr2 ->
                 (<[(ast.Ptr o, name) := lr]> om) !! (ast.Ptr o2, seg) = Some lr2).
  { intros lr2 H2. unfold token.objectMapper in *.
    rewrite lookup_insert_ne; [exact H2|]. congruence. }
  revert H. destruct path as [|next rest].
  - rewrite !lookup_single.
    destruct (om !! (ast.Ptr o2, seg)) as [lr2|] eqn:H2; [|discriminate].
    rewrite (Hkey lr2 eq_refl). auto.
  - rewrite !lookup_step.
    destruct (om !! (ast.Ptr o2, seg)) as [lr2|] eqn:H2; [|discriminate].
    rewrite (Hkey lr2 eq_refl).
    destruct (token.fieldByName o2 seg) as [field|e|m]; try discriminate.
    destruct (ast.Body field) as [| | | | | | | | | | | | |? ? localBody| | | |];
      try discriminate.
    destruct localBody; try discriminate.
    apply IH.
Qed.

Lemma add_keeps_lookups_witness :
  token.lookup test_mapper test_object ["a"]
  = Return (jpos.NewLocation "file.jsonnet" (jpos.NewRangeFromCoords 1 2 1 3)).
Proof.
  refine (add_keeps_lookups (fst (token.add ∅ test_object "a")) test_nested "b"
            ["a"] test_object _ _ _).
  - vm_compute. reflexivity.
  - vm_compute. reflexivity.
Defined.

Lemma fieldByName_loop_spec name fields :
  match token.fieldByName_loop fields name with
  | Return f =>
      exists pre rest,
        fields = (pre ++ f :: rest)%list /\ named name f /\ Forall (named_otherwise name) pre
  | Fail e =>
      (e = Errorf "field %s does not exist" [ArgS name]
       /\ Forall (named_otherwise name) fields)
      \/ (e = errors_New "field name is not a string"
          /\ exists pre f rest,
               fields = (pre ++ f :: rest)%list /\ computed_name f
               /\ Forall (named_otherwise name) pre)
  | Panic _ => False
  end.
Proof.
  induction fields as [|f fields IH]; [left; split; [reflexivity | constructor]|].
  cbn [token.fieldByName_loop]. unfold token.fieldName.
  destruct (ast.Name f) eqn:Hname;
    try (right; split; [reflexivity|]; exists [], f, fields;
         split; [reflexivity|]; split; [|constructor];
         intros l v; rewrite Hname; discriminate).
  destruct (String.eqb_spec value name) as [->|Hne].
  - exists [], fields. split; [reflexivity|]. split; [|constructor].
    exists loc. exact Hname.
  - assert (Hf : named_otherwise name f) by (exists loc, value; auto).
    destruct (token.fieldByName_loop fields name) as [g|e|m].
    + destruct IH as (pre & rest & -> & Hg & Hpre).
      exists (f :: pre), rest. repeat split; [exact Hg | constructor; assumption].
    + destruct IH as [[-> Hall]|[-> (pre & g & rest & -> & Hg & Hpre)]].
      * left. split; [reflexivity | constructor; assumption].
      * right. split; [reflexivity|]. exists (f :: pre), g, rest.
        repeat split; [exact Hg | constructor; assumption].
    + exact IH.
Qed.

(** fieldByName returns the first field named by the string literal [name].
    It fails with "does not exist" when every field is named by another
    string, and with "field name is not a string" as soon as it meets a
    computed name before a match, whatever follows; it never panics. *)
Theorem fieldByName_first_match :
  forall (o : ast.DesugaredObjectT) (name : string),
    match token.fieldByName o name with
    | Return f =>
        exists pre rest,
          ast.Fields o = (pre ++ f :: rest)%list /\ named name f
          /\ Forall (named_otherwise name) pre
    | Fail e =>
        (e = Errorf "field %s does not exist" [ArgS name]
         /\ Forall (named_otherwise name) (ast.Fields o))
        \/ (e = errors_New "field name is not a string"
            /\ exists pre f rest,
                 ast.Fields o = (pre ++ f :: rest)%list /\ computed_name f
                 /\ Forall (named_otherwise name) pre)
    | Panic _ => False
    end.
Proof. intros o name. apply fieldByName_loop_spec. Qed.

Lemma fieldNameLoc_loop_get fl name :
  token.fieldNameLoc_loop fl name =
  match token.FieldLocs_get fl name with
  | Some loc => Return (jpos.FromJsonnetRange loc)
  | None => Fail (Errorf "field %q was not found" [ArgQ name])
  end.
Proof.
  induction fl as [|[k loc] fl IH]; [reflexivity|].
  destruct k as [s| |]; cbn [token.fieldNameLoc_loop token.FieldLocs_get]; try exact IH.
  rewrite (String.eqb_sym name s). destruct (String.eqb s name); [reflexivity | exact IH].
Qed.

(** fieldNameLoc and the mapper agree: a field that add can record is a
    field fieldNameLoc finds, and the range the one-segment lookup returns
    after add is the range fieldNameLoc returns; a field add cannot record
    is "not found" for fieldNameLoc. *)
Theorem fieldNameLoc_agrees_with_add :
  forall (om : token.objectMapper) (o : ast.DesugaredObjectT) (name : string),
    match token.fieldNameLoc o name with
    | Return r =>
        snd (token.add om o name) = None
        /\ exists loc, token.lookup (fst (token.add om o name)) o [name] = Return loc
                       /\ jpos.range loc = r
    | Fail e =>
        e = Errorf "field %q was not found" [ArgQ name]
        /\ snd (token.add om o name) <> None
    | Panic _ => False
    end.
Proof.
  intros om o name. unfold token.fieldNameLoc. rewrite fieldNameLoc_loop_get.
  unfold token.add.
  destruct (token.FieldLocs_get (ast.FieldLocs o) name) as [lr|].
  - split; [reflexivity|]. exists (jpos.LocationFromJsonnet lr).
    split; [|reflexivity].
    rewrite lookup_single. cbn [fst]. unfold token.objectMapper in *.
    rewrite lookup_insert_eq. reflexivity.
  - split; [reflexivity | discriminate].
Qed.

Lemma fieldNameAt_loop_sound fl pos :
  (snd (token.fieldNameAt_loop fl pos)
     = Some (Errorf "position %s isn't in an object key" [ArgPos pos])
   <-> forall k loc, In (k, loc) fl -> jpos.IsInJsonnetRange pos loc = false)
  /\ (forall name r,
        token.fieldNameAt_loop fl pos = (name, r, None) ->
        exists loc, In (ast.KeyString name, loc) fl
                    /\ jpos.IsInJsonnetRange pos loc = true
                    /\ r = jpos.FromJsonnetRange loc).
Proof.
  induction fl as [|[k loc] fl [IHerr IHok]].
  - split; [split; [intros _ k loc [] | reflexivity] | discriminate].
  - cbn [token.fieldNameAt_loop].
    destruct (jpos.IsInJsonnetRange pos loc) eqn:Hin.
    + split.
      * split.
        -- intros H. exfalso. destruct k as [s| |[]]; simpl in H; discriminate H.
        -- intros H. rewrite (H k loc (or_introl eq_refl)) in Hin. discriminate.
      * intros name r H. destruct k as [s| |[]]; try discriminate H.
        inversion H; subst. exists loc. auto using in_eq.
    + split.
      * rewrite IHerr. split.
        -- intros H k' loc' [Heq|Hin']; [inversion Heq; subst; exact Hin | eauto].
        -- intros H k' loc' Hin'. apply (H k' loc'). right. exact Hin'.
      * intros name r H. destruct (IHok name r H) as (loc' & H1 & H2 & H3).
        exists loc'. auto using in_cons.
Qed.

(** fieldNameAt reports "position isn't in an object key" exactly when no
    recorded name range contains the position; when it succeeds, the name is
    a string key whose recorded range contains the position, and the range
    is that recorded range. *)
Theorem fieldNameAt_sound :
  forall (o : ast.DesugaredObjectT) (pos : jpos.Position),
    (snd (token.fieldNameAt o pos)
       = Some (Errorf "position %s isn't in an object key" [ArgPos pos])
     <-> forall k loc, In (k, loc) (ast.FieldLocs o) ->
                       jpos.IsInJsonnetRange pos loc = false)
    /\ (forall name r,
          token.fieldNameAt o pos = (name, r, None) ->
          exists loc, In (ast.KeyString name, loc) (ast.FieldLocs o)
                      /\ jpos.IsInJsonnetRange pos loc = true
                      /\ r = jpos.FromJsonnetRange loc).
Proof. intros o pos. apply fieldNameAt_loop_sound. Qed.

Lemma FieldLocs_get_unique fl name loc :
  NoDup (map fst fl) -> In (ast.KeyString name, loc) fl ->
  token.FieldLocs_get fl name = Some loc.
Proof.
  induction fl as [|[k l] fl IH]; intros Hnd Hin; [destruct Hin|].
  inversion Hnd as [|? ? Hnotin Hnd']; subst.
  destruct Hin as [Heq|Hin].
  - inversion Heq; subst. cbn [token.FieldLocs_get]. rewrite String.eqb_refl. reflexivity.
  - destruct k as [s| |]; cbn [token.FieldLocs_get]; try (apply IH; assumption).
    destruct (String.eqb_spec s name) as [->|Hne]; [|apply IH; assumption].
    exfalso. apply Hnotin, list_elem_of_In. apply (in_map fst) in Hin. exact Hin.
Qed.

(** The keys of a Go map are distinct.  Then the range fieldNameAt returns
    for the name under the position is the range fieldNameLoc returns for
    that name, and pathToLocation returns the one-segment path with it. *)
Theorem fieldNameAt_then_fieldNameLoc :
  forall (o : ast.DesugaredObjectT) (pos : jpos.Position) (name : string)
         (r : jpos.Range),
    NoDup (map fst (ast.FieldLocs o)) ->
    token.fieldNameAt o pos = (name, r, None) ->
    token.fieldNameLoc o name = Return r
    /\ token.pathToLocation o pos = Return (token.mkObjectPath [name] r ast.Nil None).
Proof.
  intros o pos name r Hnd H. split.
  - destruct (proj2 (fieldNameAt_loop_sound (ast.FieldLocs o) pos) name r H)
      as (loc & Hin & _ & ->).
    unfold token.fieldNameLoc. rewrite fieldNameLoc_loop_get.
    rewrite (FieldLocs_get_unique _ _ _ Hnd Hin). reflexivity.
  - destruct o as [ptr l fields fl]. cbn [token.pathToLocation].
    rewrite H. reflexivity.
Qed.

Lemma fieldNameAt_then_fieldNameLoc_witness :
  token.fieldNameLoc path_test_object "a"
    = Return (jpos.NewRangeFromCoords 1 2 1 3)
  /\ token.pathToLocation path_test_object (jpos.New 1 2)
     = Return (token.mkObjectPath ["a"] (jpos.NewRangeFromCoords 1 2 1 3) ast.Nil None).
Proof.
  refine (fieldNameAt_then_fieldNameLoc path_test_object (jpos.New 1 2) "a"
            (jpos.NewRangeFromCoords 1 2 1 3) _ _).
  - simpl. apply NoDup_singleton.
  - reflexivity.
Defined.

Lemma overFields_path_nonempty self o pos fs :
  forall op, token.overFields self o pos fs = Return op -> token.opPath op <> [].
Proof.
  induction fs as [|field rest IH]; intros op; [discriminate|].
  cbn [token.overFields]. unfold token.overField, token.overFieldBody.
  repeat match goal with
         | |- context [match ?x with _ => _ end] => destruct x
         | |- context [if ?b then _ else _] => destruct b
         end;
    try discriminate; try apply IH;
    intros Heq; inversion Heq; discriminate.
Qed.

(** A path that pathToLocation returns is never empty, so handing it to the
    mapper's lookup cannot run into the empty-path panic, whatever the index
    and the object. *)
Theorem pathToLocation_path_nonempty :
  forall (o : ast.DesugaredObjectT) (pos : jpos.Position) (op : token.objectPath),
    token.pathToLocation o pos = Return op ->
    token.opPath op <> []
    /\ forall (om : token.objectMapper) (o2 : ast.DesugaredObjectT),
         is_panic (token.lookup om o2 (token.opPath op)) = false.
Proof.
  intros o pos op H.
  assert (Hne : token.opPath op <> []).
  { destruct o as [ptr l fields fl]. cbn [token.pathToLocation] in H.
    destruct (token.fieldNameAt (ast.mkDesugaredObject ptr l fields fl) pos)
      as [[name r] [e|]].
    - exact (overFields_path_nonempty _ _ _ _ _ H).
    - inversion H. discriminate. }
  split; [exact Hne|]. intros om o2. apply lookup_nonempty_no_panic, Hne.
Qed.

Lemma pathToLocation_path_nonempty_witness :
  is_panic (token.lookup test_mapper test_object ["a"; "b"]) = false.
Proof.
  exact (proj2 (pathToLocation_path_nonempty path_test_object (jpos.New 1 5)
                  (token.mkObjectPath ["a"; "b"] (jpos.NewRangeFromCoords 1 5 1 6)
                     ast.Nil None) eq_refl) test_mapper test_object).
Defined.

(** ** idNode (highlight.go) *)

Lemma optionalAt_first pos pre p rest id :
  Forall (param_misses pos) pre ->
  jpos.IsInJsonnetRange pos (ast.ParamLoc p) = true ->
  token.optionalAt (pre ++ p :: rest) pos id = ast.ParamName p.
Proof.
  intros Hpre Hp. induction Hpre as [|q pre Hq _ IH]; simpl.
  - rewrite Hp. reflexivity.
  - unfold param_misses in Hq. rewrite Hq. exact IH.
Qed.

Lemma optionalAt_none pos ps id :
  Forall (param_misses pos) ps -> token.optionalAt ps pos id = id.
Proof.
  intros H. induction H as [|q ps Hq _ IH]; simpl; [reflexivity|].
  unfold param_misses in Hq. rewrite Hq. exact IH.
Qed.

Lemma requiredAt_first pos pre e rest id :
  Forall (required_misses pos) pre ->
  jpos.IsInJsonnetRange pos (snd e) = true ->
  token.requiredAt (pre ++ e :: rest) pos id = fst e.
Proof.
  intros Hpre He. destruct e as [paramID loc].
  induction Hpre as [|[q l] pre Hq _ IH]; simpl.
  - simpl in He. rewrite He. reflexivity.
  - unfold required_misses in Hq. simpl in Hq. rewrite Hq. exact IH.
Qed.

Lemma requiredAt_none pos rl id :
  Forall (required_misses pos) rl -> token.requiredAt rl pos id = id.
Proof.
  intros H. induction H as [|[q l] rl Hq _ IH]; simpl; [reflexivity|].
  unfold required_misses in Hq. simpl in Hq. rewrite Hq. exact IH.
Qed.

(** idNode on a function: the identifier is the first optional parameter
    whose range contains the position, even when a required parameter's
    range contains it too; without such an optional parameter it is the
    first required parameter (in the iteration order of RequiredLocs) whose
    range contains the position; without any it is the empty identifier.
    The path is always empty and nothing fails. *)
Theorem idNode_function_parameter :
  forall parent resolveIndex (fuel : nat) (f : ast.FunctionT) (pos : jpos.Position),
    exists id,
      token.idNode parent resolveIndex (S fuel) (ast.Function f) pos
        = Some (Return (id, []))
      /\ (forall pre p rest,
            ast.Optional f = (pre ++ p :: rest)%list ->
            Forall (param_misses pos) pre ->
            jpos.IsInJsonnetRange pos (ast.ParamLoc p) = true ->
            id = ast.ParamName p)
      /\ (Forall (param_misses pos) (ast.Optional f) ->
          (forall pre e rest,
              ast.RequiredLocs f = (pre ++ e :: rest)%list ->
              Forall (required_misses pos) pre ->
              jpos.IsInJsonnetRange pos (snd e) = true ->
              id = fst e)
          /\ (Forall (required_misses pos) (ast.RequiredLocs f) -> id = "")).
Proof.
  intros parent resolveIndex fuel f pos. eexists. split; [reflexivity|]. split.
  - intros pre p rest -> Hpre Hp. apply optionalAt_first; assumption.
  - intros Hopt. rewrite (optionalAt_none _ _ _ Hopt). split.
    + intros pre e rest -> Hpre He. apply requiredAt_first; assumption.
    + apply requiredAt_none.
Qed.

Example idNode_function_demo :
  token.idNode (fun _ => ast.Nil) (fun _ => []) 1
    (ast.Function two_param_function) (jpos.New 1 13) = Some (Return ("y", []))
  /\ token.idNode (fun _ => ast.Nil) (fun _ => []) 1
       (ast.Function two_param_function) (jpos.New 1 10) = Some (Return ("x", []))
  /\ token.idNode (fun _ => ast.Nil) (fun _ => []) 1
       (ast.Function two_param_function) (jpos.New 1 20) = Some (Return ("", [])).
Proof. repeat split. Qed.

Lemma bindAt_none pos binds id :
  Forall (bind_misses pos) binds -> token.bindAt binds pos id = id.
Proof.
  intros H. revert id. induction H as [|b binds Hb _ IH]; intros id; simpl;
    [reflexivity|].
  unfold bind_misses in Hb. rewrite Hb. apply IH.
Qed.

Lemma bindAt_last pos pre b rest id :
  jpos.IsInJsonnetRange pos (ast.VarLoc b) = true ->
  Forall (bind_misses pos) rest ->
  token.bindAt (pre ++ b :: rest) pos id = ast.BindVariable b.
Proof.
  intros Hb Hrest. revert id. induction pre as [|q pre IH]; intros id; simpl.
  - rewrite Hb. apply bindAt_none, Hrest.
  - apply IH.
Qed.

(** idNode on a local: the loop over the binds has no break, so the
    identifier is the variable of the last bind whose name range contains the
    position; when no bind's name range contains it, the result is the empty
    identifier, not an error. *)
Theorem idNode_local_bind :
  forall parent resolveIndex (fuel : nat) loc (binds : list ast.LocalBind)
         (body : ast.Node) (pos : jpos.Position),
    exists id,
      token.idNode parent resolveIndex (S fuel) (ast.Local loc binds body) pos
        = Some (Return (id, []))
      /\ (forall pre b rest,
            binds = (pre ++ b :: rest)%list ->
            jpos.IsInJsonnetRange pos (ast.VarLoc b) = true ->
            Forall (bind_misses pos) rest ->
            id = ast.BindVariable b)
      /\ (Forall (bind_misses pos) binds -> id = "").
Proof.
  intros parent resolveIndex fuel loc binds body pos.
  eexists. split; [reflexivity|]. split.
  - intros pre b rest -> Hb Hrest. apply bindAt_last; assumption.
  - apply bindAt_none.
Qed.

Example idNode_local_demo :
  token.idNode (fun _ => ast.Nil) (fun _ => []) 1 two_bind_local (jpos.New 1 12)
    = Some (Return ("b", []))
  /\ token.idNode (fun _ => ast.Nil) (fun _ => []) 1 two_bind_local (jpos.New 1 17)
     = Some (Return ("", [])).
Proof. repeat split. Qed.

(** idNode on an index node hands out the head of the resolved index path
    as the identifier and the tail as the path; a desugared object is
    replaced by its parent; and when the resolved path is empty the index
    arm panics with an out-of-range index. *)
Theorem idNode_index_and_object :
  forall parent resolveIndex (fuel : nat) (pos : jpos.Position),
    (forall loc target index,
        token.idNode parent resolveIndex (S fuel) (ast.Index loc target index) pos
        = match resolveIndex (ast.Index loc target index) with
          | [] => Some (Panic "runtime error: index out of range [0] with length 0")
          | id :: path => Some (Return (id, path))
          end)
    /\ (forall o,
          token.idNode parent resolveIndex (S fuel) (ast.DesugaredObject o) pos
          = token.idNode parent resolveIndex fuel (parent o) pos)
    /\ (forall o loc id,
          parent o = ast.Var loc id ->
          token.idNode parent resolveIndex (S (S fuel)) (ast.DesugaredObject o) pos
          = Some (Return (id, []))).
Proof.
  intros parent resolveIndex fuel pos. split; [reflexivity|]. split; [reflexivity|].
  intros o loc id H. cbn [token.idNode]. rewrite H. reflexivity.
Qed.

(** ** findLocation2: offsets on one line (locate.go) *)

Lemma newlines_in_0 s : newlines_in s 0 = 0.
Proof. destruct s; reflexivity. Qed.

Lemma newlines_in_S s : forall n,
  newlines_in s (S n) = newlines_in s n + newline_at s n.
Proof.
  unfold newline_at. induction s as [|t rest IH]; intros n.
  - rewrite newlines_in_0 || idtac. destruct n; reflexivity.
  - destruct n as [|n].
    + cbn [newlines_in String.get]. rewrite !newlines_in_0. lia.
    + cbn [newlines_in String.get]. rewrite IH. lia.
Qed.

Lemma newline_at_range s n : 0 <= newline_at s n <= 1.
Proof.
  unfold newline_at. destruct (String.get n s) as [c|]; [|lia].
  destruct (Ascii.eqb c locate.newline); lia.
Qed.

Lemma newlines_in_mono s n m : (n <= m)%nat -> newlines_in s n <= newlines_in s m.
Proof.
  induction 1 as [|m _ IH]; [lia|].
  rewrite newlines_in_S. pose proof (newline_at_range s m). lia.
Qed.

Lemma newlines_in_same s n m :
  (n <= m)%nat ->
  (forall i, (n <= i < m)%nat -> newline_at s i = 0) ->
  newlines_in s m = newlines_in s n.
Proof.
  induction 1 as [|m Hle IH]; intros Hno; [reflexivity|].
  rewrite newlines_in_S, IH, (Hno m); [lia | lia |].
  intros i Hi. apply Hno. lia.
Qed.

(** findLocation2 cannot tell the offsets of one line apart: the row never
    decreases with the offset, and two offsets inside the source get the
    same location when no newline byte lies after the first, up to and
    including the second. *)
Theorem findLocation2_same_line :
  forall (source : string) (p q : Z),
    strlen source < 2 ^ 63 - 1 ->
    0 <= p <= q -> q < strlen source ->
    (exists rp rq,
        locate.findLocation2 source p = Return (locate.createLoc rp 1)
        /\ locate.findLocation2 source q = Return (locate.createLoc rq 1)
        /\ rp <= rq)
    /\ ((forall i, p < i <= q -> newline_at source (Z.to_nat i) = 0) ->
        locate.findLocation2 source p = locate.findLocation2 source q).
Proof.
  intros source p q Hlen Hpq Hq. unfold locate.findLocation2.
  destruct (findLocation2_loop_spec source p 1 0) as [Hp _]; [lia | lia | lia |].
  destruct (findLocation2_loop_spec source q 1 0) as [Hq' _]; [lia | lia | lia |].
  rewrite Hp, Hq' by lia.
  replace (p - 0 + 1) with (p + 1) by lia. replace (q - 0 + 1) with (q + 1) by lia.
  split.
  - do 2 eexists. split; [reflexivity|]. split; [reflexivity|].
    pose proof (newlines_in_mono source (Z.to_nat (p + 1)) (Z.to_nat (q + 1))). lia.
  - intros Hno. do 2 f_equal. f_equal. symmetry.
    apply newlines_in_same; [lia|].
    intros i Hi. specialize (Hno (Z.of_nat i)). rewrite Nat2Z.id in Hno.
    apply Hno. lia.
Qed.

(** In ["ab\ncd"] the offsets 3 and 4 are the [c] and the [d] of line 2. *)
Lemma findLocation2_same_line_witness :
  locate.findLocation2 (String "a" (String "b" (String locate.newline "cd"))) 3
  = locate.findLocation2 (String "a" (String "b" (String locate.newline "cd"))) 4.
Proof.
  refine (proj2 (findLocation2_same_line
                   (String "a" (String "b" (String locate.newline "cd"))) 3 4 _ _ _) _).
  - vm_compute. reflexivity.
  - lia.
  - vm_compute. reflexivity.
  - intros i Hi. assert (i = 4) as -> by lia. reflexivity.
Defined.

(** ** resolveIndex: what every result looks like (completion handler) *)

Section index_results.

Import go_regexp.

Lemma resolveIndex_path_witness :
  server.resolveIndex "local o={a:{b:1}}; f(o.a.)" = Return ["o"; "a"].
Proof.
  exact (resolveIndex_path "local o={a:{b:1}}; f(" ["o"; "a"] ")"
           ltac:(discriminate) ltac:(repeat constructor) eq_refl eq_refl).
Defined.

Lemma resolveIndex_path_closers_witness :
  server.resolveIndex "{x: f(o.a.)}" = Return ["o"; "a"; ")}"].
Proof.
  exact (resolveIndex_path_closers "{x: f(" ["o"; "a"] ")}"
           ltac:(discriminate) ltac:(repeat constructor) eq_refl
           ltac:(simpl; lia) eq_refl).
Defined.

Lemma FindAllString_1_anchored_cases r s :
  FindAllString_1_anchored r s = []
  \/ exists m, FindAllString_1_anchored r s = [m] /\ matches r m = true.
Proof.
  induction s as [|c s IH].
  - simpl. destruct (nullable r) eqn:Hn; [right; exists ""; auto | left; reflexivity].
  - cbn [FindAllString_1_anchored].
    destruct (matches r (String c s)) eqn:Hm; [right; eexists; eauto | exact IH].
Qed.

Lemma segment_of_Plus w : lang (Plus (Class word_char)) w -> is_segment w = true.
Proof.
  intros H. destruct (lang_Plus_all _ _ H) as [Hall Hne].
  unfold is_segment. rewrite Hall. destruct w; [congruence | reflexivity].
Qed.

Lemma lang_group_inv s :
  lang reIndex_group s -> exists w, s = w ++ String go_strings.dot "" /\ is_segment w = true.
Proof.
  unfold reIndex_group. intros H.
  destruct (lang_Cat_inv _ _ _ H) as (w & d & -> & Hw & Hd).
  destruct (lang_Class_inv _ _ Hd) as (c & -> & Hc).
  unfold server.is_char in Hc. apply Ascii.eqb_eq in Hc. subst c.
  exists w. split; [reflexivity | apply segment_of_Plus, Hw].
Qed.

Lemma lang_Star_group_head s :
  lang (Star reIndex_group) s ->
  s = "" \/ exists w rest, s = w ++ String go_strings.dot rest /\ is_segment w = true.
Proof.
  intros H. remember (Star reIndex_group) as r eqn:Hr. revert Hr.
  induction H as [| | | | | |a s1 s2 H1 _ H2 _]; intros Hr; try discriminate;
    [left; reflexivity|].
  inversion Hr; subst a. right.
  destruct (lang_group_inv _ H1) as (w & -> & Hw).
  exists w, s2. rewrite str_append_assoc, str_append_String, str_append_nil_l. auto.
Qed.

(** Every text the pattern matches starts with a segment and its dot. *)
Lemma lang_reIndex_head m :
  lang server.reIndex m ->
  exists w rest, m = w ++ String go_strings.dot rest /\ is_segment w = true.
Proof.
  unfold server.reIndex. intros H.
  destruct (lang_Cat_inv _ _ _ H) as (s123 & s4 & -> & H123 & H4).
  destruct (lang_Cat_inv _ _ _ H123) as (s12 & s3 & -> & H12 & H3).
  destruct (lang_Cat_inv _ _ _ H12) as (s1 & s2 & -> & H1 & H2).
  destruct (lang_Class_inv _ _ H3) as (d & -> & Hd).
  unfold server.is_char in Hd. apply Ascii.eqb_eq in Hd. subst d.
  destruct (lang_Star_group_head s1 H1) as [->|(w & rest & -> & Hw)].
  - exists s2, s4. rewrite str_append_nil_l, str_append_assoc, str_append_String,
      str_append_nil_l. split; [reflexivity | apply segment_of_Plus, H2].
  - exists w, ((rest ++ s2) ++ String "." "" ++ s4). split; [|exact Hw].
    repeat (rewrite str_append_assoc || rewrite str_append_String
            || rewrite str_append_nil_l).
    reflexivity.
Qed.

Lemma Split_dot_pieces s : Forall (fun piece => all_chars not_dot piece = true)
                                  (go_strings.Split_dot s).
Proof.
  induction s as [|c s IH]; [repeat constructor|].
  cbn [go_strings.Split_dot]. destruct (Ascii.eqb c go_strings.dot) eqn:Hc.
  - constructor; [reflexivity | exact IH].
  - destruct (go_strings.Split_dot s) as [|piece pieces].
    + repeat constructor. simpl. unfold not_dot. rewrite Hc. reflexivity.
    + inversion IH; subst. constructor; [|assumption].
      simpl. unfold not_dot at 1. rewrite Hc. assumption.
Qed.

Lemma removeEmpty_Forall (P : string -> Prop) sl :
  Forall P sl ->
  Forall (fun s => P s /\ s <> "" /\ server.stringInSlice s server.ignoredIndexItems = false)
         (server.removeEmpty sl).
Proof.
  induction 1 as [|s sl Hs _ IH]; [constructor|].
  cbn [server.removeEmpty].
  destruct (String.eqb_spec s ""); cbn [negb]; [exact IH|].
  destruct (server.stringInSlice s server.ignoredIndexItems) eqn:Hin; cbn [negb];
    [exact IH|].
  constructor; auto.
Qed.

(** Every path resolveIndex returns starts with a path segment, so it is not
    empty; no element of it is the empty string, none contains a dot, and
    none is one of the four single closers.  The "expected only one match"
    error is never returned. *)
Theorem resolveIndex_result_shape :
  forall source : string,
    (forall segs,
        server.resolveIndex source = Return segs ->
        (exists w rest, segs = w :: rest /\ is_segment w = true)
        /\ Forall (fun s => all_chars not_dot s = true /\ s <> ""
                            /\ server.stringInSlice s server.ignoredIndexItems = false)
                  segs)
    /\ server.resolveIndex source
       <> Fail (Errorf "expected only one match when looking for index" []).
Proof.
  intros source. unfold server.resolveIndex.
  destruct (FindAllString_1_anchored_cases server.reIndex source)
    as [->|(m & -> & Hm)]; [split; [discriminate | discriminate]|].
  split; [|discriminate].
  intros segs Heq. inversion Heq; subst segs. split.
  - apply matches_lang, lang_reIndex_head in Hm. destruct Hm as (w & rest & -> & Hw).
    rewrite (Split_dot_piece w rest (segment_no_dot w Hw)).
    destruct (segment_kept w Hw) as [H1 H2].
    cbn [server.removeEmpty]. rewrite H1, H2. eauto.
  - apply removeEmpty_Forall, Split_dot_pieces.
Qed.

Lemma matches_reIndex_has_dot s :
  all_chars not_dot s = true -> matches server.reIndex s = false.
Proof.
  intros Hnd. destruct (matches server.reIndex s) eqn:Hm; [|reflexivity].
  apply matches_lang, lang_reIndex_head in Hm. destruct Hm as (w & rest & -> & _).
  rewrite all_chars_app in Hnd. simpl in Hnd.
  rewrite andb_false_r in Hnd. discriminate.
Qed.

(** A text without a dot has no index: resolveIndex returns its "does not
    contain an index" error. *)
Theorem resolveIndex_needs_dot :
  forall source : string,
    all_chars not_dot source = true ->
    server.resolveIndex source
    = Fail (Errorf "%q does not contain an index" [ArgQ source]).
Proof.
  intros source Hnd. unfold server.resolveIndex.
  assert (H : FindAllString_1_anchored server.reIndex source = []).
  { induction source as [|c s IH].
    - reflexivity.
    - cbn [FindAllString_1_anchored].
      rewrite (matches_reIndex_has_dot _ Hnd). apply IH.
      simpl in Hnd. apply andb_true_iff in Hnd. apply Hnd. }
  rewrite H. reflexivity.
Qed.

Lemma resolveIndex_needs_dot_witness :
  server.resolveIndex "local o={a:9}; o"
  = Fail (Errorf "%q does not contain an index" [ArgQ "local o={a:9}; o"]).
Proof. exact (resolveIndex_needs_dot "local o={a:9}; o" eq_refl). Defined.

End index_results.

(** ** The request handler and the rebuild watcher, in general (handler.go) *)

(** Handle answers a request at most once: with the result when the
    operation returns one, with an internal-error reply when it returns an
    error; a request for a method that is not registered, and one whose
    operation panics, get no reply at all. *)
Theorem Handle_replies :
  forall (operations : string -> option (string -> outcome string))
         (method params : string),
    let replies :=
      List.filter is_reply (handled (server.Handle operations method params)) in
    (length replies <= 1)%nat
    /\ (operations method = None -> replies = [])
    /\ (forall fn, operations method = Some fn ->
          match fn params with
          | Return response => replies = [server.Reply response]
          | Fail err => replies = [server.ReplyWithError server.CodeInternalError err]
          | Panic _ => replies = []
          end).
Proof.
  intros operations method params replies. subst replies.
  unfold server.Handle, server.Handle_body.
  destruct (operations method) as [fn|].
  - destruct (fn params) as [response|err|v] eqn:Hfn; simpl;
      (split; [lia|]); (split; [discriminate|]);
      intros fn' Heq; inversion Heq; subst fn'; rewrite Hfn; reflexivity.
  - simpl. split; [lia|]. split; [reflexivity | discriminate].
Qed.

Lemma updateNodeCache_loop_sent path file events : forall sentNotif,
  server.notifications (fst (server.updateNodeCache_loop path file events sentNotif))
  = (repeat (server.running file) (leading_ticks events)
     ++ match first_result events with
        | Some server.EvDone =>
            if sentNotif || negb (Nat.eqb (leading_ticks events) 0)
            then [server.complete file] else []
        | _ => []
        end)%list
  /\ snd (server.updateNodeCache_loop path file events sentNotif)
     = match first_result events with Some _ => true | None => false end.
Proof.
  induction events as [|[err| |] rest IH]; intros sentNotif.
  - split; reflexivity.
  - split; reflexivity.
  - split; [|reflexivity]. simpl. rewrite orb_false_r.
    destruct sentNotif; reflexivity.
  - cbn [server.updateNodeCache_loop leading_ticks first_result].
    destruct (IH true) as [IH1 IH2].
    destruct (server.updateNodeCache_loop path file rest true) as [effects returned].
    cbn [fst snd] in *. split; [|exact IH2].
    unfold server.notifications in *.
    change (server.running file :: List.filter server.is_notification effects
            = server.running file
              :: (repeat (server.running file) (leading_ticks rest)
                  ++ match first_result rest with
                     | Some server.EvDone =>
                         if sentNotif || negb (Nat.eqb (S (leading_ticks rest)) 0)
                         then [server.complete file] else []
                     | _ => []
                     end)%list).
    rewrite IH1. cbn [orb negb Nat.eqb]. rewrite orb_true_r. reflexivity.
Qed.

(** The watcher without any assumption on the timer: "is running" is sent
    once for every tick received before the rebuild's result, "is complete"
    once when the result is done and at least one tick came before it, and
    nothing after the result; the loop returns exactly when a result
    arrives.  When the path cannot be computed nothing is sent at all. *)
Theorem updateNodeCache_sent_in_general :
  forall (path file : string) (events : list server.Event),
    server.notifications (fst (server.updateNodeCache (inl path) file events))
    = (repeat (server.running file) (leading_ticks events)
       ++ match first_result events with
          | Some server.EvDone =>
              if Nat.eqb (leading_ticks events) 0 then [] else [server.complete file]
          | _ => []
          end)%list
    /\ snd (server.updateNodeCache (inl path) file events)
       = match first_result events with Some _ => true | None => false end
    /\ forall err,
         server.notifications (fst (server.updateNodeCache (inr err) file events))
         = [].
Proof.
  intros path file events. unfold server.updateNodeCache.
  destruct (updateNodeCache_loop_sent path file events false) as [H1 H2].
  split; [|split; [exact H2 | reflexivity]].
  rewrite H1. cbn [orb]. destruct (first_result events) as [[| |]|]; try reflexivity.
  destruct (Nat.eqb (leading_ticks events) 0); reflexivity.
Qed.

Example updateNodeCache_two_ticks :
  server.notifications
    (fst (server.updateNodeCache (inl "/tmp/a.jsonnet") "a.jsonnet"
            [server.EvTimer; server.EvTimer; server.EvDone; server.EvTimer]))
  = [server.running "a.jsonnet"; server.running "a.jsonnet";
     server.complete "a.jsonnet"].
Proof. reflexivity. Qed.

(** ** The configuration (package config) *)

Lemma itemsToStrings_spec items : forall out,
  match config.itemsToStrings items out with
  | inl ss => exists tail, ss = (out ++ tail)%list /\ items = config.VString <$> tail
  | inr e =>
      e = Errorf "item was not a string" []
      /\ exists pre x rest, items = (pre ++ x :: rest)%list /\ not_a_string x
  end.
Proof.
  induction items as [|x items IH]; intros out.
  - exists []. rewrite app_nil_r. auto.
  - assert (Hbad : not_a_string x ->
              Errorf "item was not a string" [] = Errorf "item was not a string" []
              /\ exists pre y rest, x :: items = (pre ++ y :: rest)%list /\ not_a_string y).
    { intros Hx. split; [reflexivity|]. exists [], x, items. auto. }
    destruct x as [| | |s| | |]; cbn [config.itemsToStrings];
      try (apply Hbad; intros s'; discriminate).
    specialize (IH (out ++ [s])%list).
    destruct (config.itemsToStrings items (out ++ [s])) as [ss|e].
    + destruct IH as (tail & -> & ->). exists (s :: tail).
      rewrite <- app_assoc. auto.
    + destruct IH as (-> & pre & y & rest & -> & Hy).
      split; [reflexivity|]. exists (config.VString s :: pre), y, rest. auto.
Qed.

(** interfaceToStrings: a decoded slice converts exactly when all its items
    are strings, to those strings in order; the first other item gives "item
    was not a string"; a string slice is returned as it is; any other value
    gives the error that names its type. *)
Theorem interfaceToStrings_converts :
  (forall ss, config.interfaceToStrings (config.VSlice (config.VString <$> ss)) = inl ss)
  /\ (forall ss, config.interfaceToStrings (config.VStrings ss) = inl ss)
  /\ (forall items,
        match config.interfaceToStrings (config.VSlice items) with
        | inl ss => items = config.VString <$> ss
        | inr e =>
            e = Errorf "item was not a string" []
            /\ exists pre x rest, items = (pre ++ x :: rest)%list /\ not_a_string x
        end)
  /\ (forall v,
        (forall items, v <> config.VSlice items) ->
        (forall ss, v <> config.VStrings ss) ->
        config.interfaceToStrings v
        = inr (Errorf "unable to convert %T to array of strings"
                 [ArgT (config.GoTypeName v)])).
Proof.
  assert (Hitems : forall items,
            match config.interfaceToStrings (config.VSlice items) with
            | inl ss => items = config.VString <$> ss
            | inr e =>
                e = Errorf "item was not a string" []
                /\ exists pre x rest, items = (pre ++ x :: rest)%list /\ not_a_string x
            end).
  { intros items. cbn [config.interfaceToStrings].
    pose proof (itemsToStrings_spec items []) as H.
    destruct (config.itemsToStrings items []) as [ss|e]; [|exact H].
    destruct H as (tail & -> & ->). reflexivity. }
  split; [|split; [reflexivity|split; [exact Hitems|]]].
  - intros ss. specialize (Hitems (config.VString <$> ss)).
    destruct (config.interfaceToStrings (config.VSlice (config.VString <$> ss)))
      as [ss'|e].
    + f_equal. revert ss' Hitems. induction ss as [|s ss IH]; intros [|s' ss'] H;
        try discriminate H; [reflexivity|].
      inversion H; subst. f_equal. apply IH. assumption.
    + exfalso. destruct Hitems as (_ & pre & x & rest & Heq & Hx).
      assert (Hin : In x (config.VString <$> ss))
        by (rewrite Heq; apply in_or_app; right; left; reflexivity).
      apply in_map_iff in Hin. destruct Hin as (s & <- & _). exact (Hx s eq_refl).
  - intros v Hs Hss. destruct v; try reflexivity.
    + destruct (Hs items eq_refl).
    + destruct (Hss ss eq_refl).
Qed.

Section config_properties.

Variable DispatchFn : Type.

(** A watcher and the cancel function that Watch returned for it: after the
    cancel the dispatcher is what it was, when the id was fresh.  Dispatch
    starts one call per registered watcher; registering adds one call for
    the new watcher, and after its cancel that call is gone. *)
Theorem Watch_then_cancel :
  forall (keys : gmap string DispatchFn) (u : string) (fn : DispatchFn)
         (v : config.Message),
    keys !! u = None ->
    config.cancel DispatchFn (config.Watch DispatchFn keys u fn) u = keys
    /\ config.Dispatch DispatchFn (config.Watch DispatchFn keys u fn) v
       ≡ₚ (fn, v) :: config.Dispatch DispatchFn keys v
    /\ length (config.Dispatch DispatchFn keys v) = size keys
    /\ config.Dispatch DispatchFn
         (config.cancel DispatchFn (config.Watch DispatchFn keys u fn) u) v
       = config.Dispatch DispatchFn keys v.
Proof.
  intros keys u fn v Hfresh. unfold config.cancel, config.Watch, config.Dispatch.
  rewrite (delete_insert_id keys u fn Hfresh).
  split; [reflexivity|]. split; [|split; [|reflexivity]].
  - rewrite (map_to_list_insert keys u fn Hfresh). reflexivity.
  - rewrite length_fmap. apply length_map_to_list.
Qed.

Lemma Text_after_Store (uri_ToPath ReadFile : string -> string + error)
    (c : config.Config DispatchFn) (td : config.TextDocument) :
  config.Text DispatchFn uri_ToPath ReadFile
    (fst (config.StoreTextDocumentItem DispatchFn c td)) (config.uri td) = inl td.
Proof.
  unfold config.StoreTextDocumentItem, config.dispatch, config.dispatcher, config.Text.
  cbn [config.dispatchers config.textDocuments config.jsonnetLibPaths].
  destruct (config.dispatchers DispatchFn c !! config.TextDocumentUpdates) as [d|];
    cbn [fst config.textDocuments]; rewrite lookup_insert_eq; reflexivity.
Qed.

(** StoreTextDocumentItem then Text: the stored document is what Text
    returns for its URI, without a look at the file system; the other URIs
    read as before; the library paths are untouched; and the document is
    dispatched to the watchers of the text-document key. *)
Theorem Store_then_Text :
  forall (uri_ToPath ReadFile : string -> string + error)
         (c : config.Config DispatchFn) (td : config.TextDocument),
    let c' := fst (config.StoreTextDocumentItem DispatchFn c td) in
    config.Text DispatchFn uri_ToPath ReadFile c' (config.uri td) = inl td
    /\ (forall u, u <> config.uri td ->
          config.Text DispatchFn uri_ToPath ReadFile c' u
          = config.Text DispatchFn uri_ToPath ReadFile c u)
    /\ config.jsonnetLibPaths DispatchFn c' = config.jsonnetLibPaths DispatchFn c
    /\ snd (config.StoreTextDocumentItem DispatchFn c td)
       = config.Dispatch DispatchFn
           (default ∅ (config.dispatchers DispatchFn c !! config.TextDocumentUpdates))
           (config.MsgTextDocument td).
Proof.
  intros toPath readFile c td c'. subst c'.
  unfold config.StoreTextDocumentItem, config.dispatch, config.dispatcher, config.Text.
  cbn [config.dispatchers config.textDocuments config.jsonnetLibPaths].
  destruct (config.dispatchers DispatchFn c !! config.TextDocumentUpdates) as [d|];
    cbn [fst snd default config.textDocuments config.jsonnetLibPaths];
    (split; [rewrite lookup_insert_eq; reflexivity|]);
    (split; [intros u Hu; rewrite lookup_insert_ne by congruence; reflexivity|]);
    split; reflexivity.
Qed.

(** UpdateTextDocumentItem panics on a change event without content
    changes; otherwise it stores the text of the first change under the
    event's URI and version, whatever changes follow, and Text returns it. *)
Theorem UpdateTextDocumentItem_first_change :
  forall (uri_ToPath ReadFile : string -> string + error)
         (c : config.Config DispatchFn) (docURI : string) (docVersion : Z),
    config.UpdateTextDocumentItem DispatchFn c [] docURI docVersion
      = Panic "runtime error: index out of range [0] with length 0"
    /\ forall change rest,
         exists c' calls,
           config.UpdateTextDocumentItem DispatchFn c (change :: rest) docURI docVersion
             = Return (c', calls)
           /\ config.UpdateTextDocumentItem DispatchFn c [change] docURI docVersion
              = Return (c', calls)
           /\ config.Text DispatchFn uri_ToPath ReadFile c' docURI
              = inl (config.mkTextDocument change docURI docVersion).
Proof.
  intros toPath readFile c docURI docVersion. split; [reflexivity|].
  intros change rest. cbn [config.UpdateTextDocumentItem].
  destruct (config.StoreTextDocumentItem DispatchFn c
              (config.mkTextDocument change docURI docVersion)) as [c' calls] eqn:Hs.
  exists c', calls. split; [reflexivity|]. split; [reflexivity|].
  pose proof (Text_after_Store toPath readFile c
                (config.mkTextDocument change docURI docVersion)) as H.
  rewrite Hs in H. exact H.
Qed.

End config_properties.

Section config_update.

Variable DispatchFn : Type.

Lemma dispatch_keeps (c : config.Config DispatchFn) k msg :
  config.textDocuments DispatchFn (fst (config.dispatch DispatchFn c k msg))
    = config.textDocuments DispatchFn c
  /\ config.jsonnetLibPaths DispatchFn (fst (config.dispatch DispatchFn c k msg))
     = config.jsonnetLibPaths DispatchFn c.
Proof.
  unfold config.dispatch, config.dispatcher.
  destruct (config.dispatchers DispatchFn c !! k); split; reflexivity.
Qed.

Lemma UpdateClientConfiguration_cons (c : config.Config DispatchFn) k v rest :
  config.UpdateClientConfiguration DispatchFn c ((k, v) :: rest) =
  if String.eqb k config.JsonnetLibPaths then
    match config.interfaceToStrings v with
    | inr err =>
        (c, [], Some (config.Wrapf err "setting %q" [ArgQ config.JsonnetLibPaths]))
    | inl paths =>
        let d := config.dispatch DispatchFn
                   (config.mkConfig DispatchFn (config.textDocuments DispatchFn c) paths
                      (config.dispatchers DispatchFn c))
                   config.JsonnetLibPaths (config.MsgPaths paths) in
        let r := config.UpdateClientConfiguration DispatchFn (fst d) rest in
        (fst (fst r), (snd d ++ snd (fst r))%list, snd r)
    end
  else
    (c, [],
     Some (config.Plain (Errorf "setting %q is unknown to the jsonnet language server"
                           [ArgQ k]))).
Proof.
  cbn [config.UpdateClientConfiguration].
  destruct (String.eqb k config.JsonnetLibPaths); [|reflexivity].
  destruct (config.interfaceToStrings v) as [paths|err]; [|reflexivity].
  cbn zeta.
  destruct (config.dispatch DispatchFn _ config.JsonnetLibPaths (config.MsgPaths paths))
    as [c1 calls].
  cbn [fst snd].
  destruct (config.UpdateClientConfiguration DispatchFn c1 rest) as [[c2 calls'] err].
  reflexivity.
Qed.

(** UpdateClientConfiguration never touches the text documents, and it
    returns no error exactly when every entry of the update is the
    library-paths setting with a value that converts; a single such entry
    sets the library paths and dispatches them to that key's watchers. *)
Theorem UpdateClientConfiguration_accepts :
  forall (c : config.Config DispatchFn) (update : list (string * config.GoValue)),
    let r := config.UpdateClientConfiguration DispatchFn c update in
    config.textDocuments DispatchFn (fst (fst r)) = config.textDocuments DispatchFn c
    /\ (snd r = None <-> Forall valid_setting update)
    /\ (forall v paths,
          update = [(config.JsonnetLibPaths, v)] ->
          config.interfaceToStrings v = inl paths ->
          config.jsonnetLibPaths DispatchFn (fst (fst r)) = paths
          /\ snd (fst r)
             = config.Dispatch DispatchFn
                 (default ∅ (config.dispatchers DispatchFn c !! config.JsonnetLibPaths))
                 (config.MsgPaths paths)).
Proof.
  intros c update r. subst r. split; [|split].
  - revert c. induction update as [|[k v] rest IH]; intros c; [reflexivity|].
    rewrite UpdateClientConfiguration_cons.
    destruct (String.eqb k config.JsonnetLibPaths); [|reflexivity].
    destruct (config.interfaceToStrings v) as [paths|err]; [|reflexivity].
    cbn zeta. cbn [fst]. rewrite IH.
    exact (proj1 (dispatch_keeps _ _ _)).
  - revert c. induction update as [|[k v] rest IH]; intros c;
      [split; [constructor | reflexivity]|].
    rewrite UpdateClientConfiguration_cons.
    destruct (String.eqb_spec k config.JsonnetLibPaths) as [->|Hne].
    + destruct (config.interfaceToStrings v) as [paths|err] eqn:Hv.
      * cbn zeta. cbn [snd]. rewrite IH. split.
        -- intros H. constructor; [|exact H]. split; [reflexivity | eauto].
        -- intros H. inversion H; assumption.
      * split; [discriminate|]. intros H. inversion H as [|? ? [_ [paths Hp]] _]; subst.
        cbn [snd] in Hp. congruence.
    + split; [discriminate|]. intros H. inversion H as [|? ? [Hk _] _]; subst.
      cbn [fst] in Hk. congruence.
  - intros v paths -> Hv. rewrite UpdateClientConfiguration_cons.
    rewrite String.eqb_refl, Hv. cbn zeta.
    cbn [config.UpdateClientConfiguration fst snd]. rewrite app_nil_r.
    unfold config.dispatch, config.dispatcher.
    cbn [config.dispatchers config.jsonnetLibPaths].
    destruct (config.dispatchers DispatchFn c !! config.JsonnetLibPaths);
      split; reflexivity.
Qed.

(** An update that also holds an unknown setting fails either way, but what
    it leaves behind depends on the order in which the map is iterated: when
    the library-paths entry comes first, the new paths are already in place
    and dispatched when the error is returned; when the unknown setting
    comes first, nothing has changed. *)
Theorem UpdateClientConfiguration_partial :
  forall (c : config.Config DispatchFn) (v w : config.GoValue)
         (paths : list string) (k : string),
    config.interfaceToStrings v = inl paths ->
    k <> config.JsonnetLibPaths ->
    let unknown :=
      Some (config.Plain (Errorf "setting %q is unknown to the jsonnet language server"
                            [ArgQ k])) in
    let first := config.UpdateClientConfiguration DispatchFn c
                   [(config.JsonnetLibPaths, v); (k, w)] in
    let second := config.UpdateClientConfiguration DispatchFn c
                    [(k, w); (config.JsonnetLibPaths, v)] in
    snd first = unknown
    /\ config.jsonnetLibPaths DispatchFn (fst (fst first)) = paths
    /\ second = (c, [], unknown).
Proof.
  intros c v w paths k Hv Hk unknown first second. subst unknown first second.
  assert (Hneq : String.eqb k config.JsonnetLibPaths = false)
    by (apply String.eqb_neq; exact Hk).
  rewrite !UpdateClientConfiguration_cons.
  rewrite String.eqb_refl, Hv, Hneq. cbn zeta.
  rewrite UpdateClientConfiguration_cons, Hneq. cbn [fst snd].
  split; [reflexivity|]. split; [|reflexivity].
  exact (proj2 (dispatch_keeps _ _ _)).
Qed.

End config_update.

Lemma UpdateClientConfiguration_partial_witness :
  config.jsonnetLibPaths nat
    (fst (fst (config.UpdateClientConfiguration nat (config.New nat)
                 [(config.JsonnetLibPaths, config.VSlice [config.VString "lib"]);
                  ("jsonnet.unknown", config.VBool true)])))
  = ["lib"].
Proof.
  refine (proj1 (proj2 (UpdateClientConfiguration_partial nat (config.New nat)
            (config.VSlice [config.VString "lib"]) (config.VBool true)
            ["lib"] "jsonnet.unknown" eq_refl _))).
  discriminate.
Defined.

Lemma Watch_then_cancel_witness :
  config.cancel nat (config.Watch nat ∅ "3c1f" 7%nat) "3c1f" = ∅.
Proof.
  refine (proj1 (Watch_then_cancel nat ∅ "3c1f" 7%nat (config.MsgPaths []) _)).
  apply lookup_empty.
Defined.

(** ** Publishing diagnostics (document_processor.go) *)

Lemma collect_with_conn ToLSP sent : forall acc,
  lexical.collect ToLSP true sent acc = (acc ++ map (published ToLSP) sent)%list.
Proof.
  induction sent as [|d sent IH]; intros acc; simpl.
  - rewrite app_nil_r. reflexivity.
  - rewrite IH, <- app_assoc. reflexivity.
Qed.

(** Process returns no error exactly when the path, the parse and the
    desugaring succeed -- a failing Notify is only logged.  With a
    connection it then sends one publishDiagnostics notification for the
    document, holding one error-severity diagnostic per parser diagnostic, in
    the parser's order.  Without a connection, and whenever it returns an
    error, it sends nothing. *)
Theorem Process_publishes :
  forall (ToLSP : jpos.Range -> lsp.Range) (docURI : string)
         (toPath : string + error) (sent : list lexical.ParseDiagnostic)
         (parsed : ast.Node + error) (desugar : ast.Node -> ast.Node + error)
         (conn : option (option error)),
    let r := lexical.Process ToLSP docURI toPath sent parsed desugar conn in
    let notified := List.filter lexical.is_notify (fst r) in
    (snd r = None <->
       exists filename node node',
         toPath = inl filename /\ parsed = inl node /\ desugar node = inl node')
    /\ (forall notifyErr,
          conn = Some notifyErr -> snd r = None ->
          notified
          = [lexical.Notify "textDocument/publishDiagnostics"
               (lsp.mkPublishDiagnosticsParams docURI (map (published ToLSP) sent))])
    /\ (conn = None -> notified = [])
    /\ (snd r <> None -> notified = []).
Proof.
  intros ToLSP docURI toPath sent parsed desugar conn r notified.
  subst notified r. unfold lexical.Process, lexical.convertToNode.
  destruct toPath as [filename|err].
  2:{ split; [split; [discriminate | intros (f & n & n' & H & _); discriminate]|].
      split; [discriminate|]. split; reflexivity. }
  destruct parsed as [node|err].
  2:{ split; [split; [discriminate | intros (f & n & n' & _ & H & _); discriminate]|].
      split; [discriminate|]. split; reflexivity. }
  destruct (desugar node) as [node'|err] eqn:Hd.
  2:{ split; [split; [discriminate|]|].
      - intros (f & n & n' & _ & Hn & Hd'). inversion Hn; subst n. congruence.
      - split; [discriminate|]. split; reflexivity. }
  assert (Hok : exists filename0 node0 node0',
             @inl string error filename = inl filename0
             /\ @inl ast.Node error node = inl node0 /\ desugar node0 = inl node0')
    by (exists filename, node, node'; auto).
  destruct conn as [[err|]|]; cbn [fst snd].
  - split; [split; [intros _; exact Hok | reflexivity]|].
    split; [|split; [discriminate | congruence]].
    intros notifyErr _ _. rewrite collect_with_conn. reflexivity.
  - split; [split; [intros _; exact Hok | reflexivity]|].
    split; [|split; [discriminate | congruence]].
    intros notifyErr _ _. rewrite collect_with_conn. reflexivity.
  - split; [split; [intros _; exact Hok | reflexivity]|].
    split; [discriminate|]. split; [reflexivity | congruence].
Qed.

Example Process_demo :
  List.filter lexical.is_notify
    (fst (lexical.Process demo_ToLSP "file:///a.jsonnet" (inl "/a.jsonnet")
            [lexical.mkParseDiagnostic "expected token" (test_range 1 13 1 13)]
            (inl (ast.Partial None)) (fun n => inl n)
            (Some (Some (errors_New "connection closed")))))
  = [lexical.Notify "textDocument/publishDiagnostics"
       (lsp.mkPublishDiagnosticsParams "file:///a.jsonnet"
          [lsp.mkDiagnostic
             (lsp.mkRange (lsp.mkPosition 0 12) (lsp.mkPosition 0 12))
             "expected token" lsp.Error])].
Proof. reflexivity. Qed.

(** ** From a position to a path and back to a declaration (object.go) *)

Lemma FieldLocs_get_In fl name loc :
  token.FieldLocs_get fl name = Some loc -> In (ast.KeyString name, loc) fl.
Proof.
  induction fl as [|[k l] fl IH]; [discriminate|].
  destruct k as [s| |]; cbn [token.FieldLocs_get]; try (intros H; right; exact (IH H)).
  destruct (String.eqb_spec s name) as [->|Hne].
  - intros H. inversion H; subst. left. reflexivity.
  - intros H. right. exact (IH H).
Qed.

(** How one iteration over a field can return a path. *)
Lemma overFieldBody_Return self o pos f next op :
  token.overFieldBody self o pos f next = Return op ->
  next = Return op
  \/ (exists name loc, In (ast.KeyString name, loc) (ast.FieldLocs o)
                       /\ token.opPath op = [name])
  \/ (exists l name l2 binds n op',
        ast.Name f = ast.LiteralString l name
        /\ ast.Body f = ast.Local l2 binds (ast.DesugaredObject n)
        /\ self n = Return op'
        /\ token.opPath op = name :: token.opPath op').
Proof.
  unfold token.overFieldBody.
  destruct (ast.Body f) as [| | | | | | | | | | | | |l2 binds localBody| | | |] eqn:Hb;
    try discriminate;
    try (destruct (ast.Loc _); [|auto];
         destruct (negb _); [auto|];
         destruct (ast.Name f); auto; discriminate).
  destruct (ast.Loc (ast.Local l2 binds localBody)); [|auto].
  destruct (negb _); [auto|].
  destruct (ast.Name f) as [| | | | | | | | | | | |nl name| | | | |] eqn:Hn; auto.
  destruct localBody as [| | | |n| | | | | | | | | | | | |];
    try (unfold token.fieldNameLoc; rewrite fieldNameLoc_loop_get;
         destruct (token.FieldLocs_get (ast.FieldLocs o) name) as [floc|] eqn:Hg;
         [|discriminate];
         intros H; inversion H; subst op; right; left;
         exists name, floc; split; [apply FieldLocs_get_In, Hg | reflexivity]).
  destruct (self n) as [op'|e|m] eqn:Hs; try discriminate.
  intros H. inversion H; subst op. right. right.
  exists nl, name, l2, binds, n, op'. auto.
Qed.

Lemma overField_Return self o pos f next op :
  token.overField self o pos f next = Return op ->
  next = Return op
  \/ (exists name loc, In (ast.KeyString name, loc) (ast.FieldLocs o)
                       /\ token.opPath op = [name])
  \/ (exists l name l2 binds n op',
        ast.Name f = ast.LiteralString l name
        /\ ast.Body f = ast.Local l2 binds (ast.DesugaredObject n)
        /\ self n = Return op'
        /\ token.opPath op = name :: token.opPath op').
Proof.
  unfold token.overField.
  destruct (token.findFieldFunction f) as [fn|]; [|apply overFieldBody_Return].
  destruct (token.fieldName f) as [name|e|m]; try discriminate.
  destruct (token.FieldLocs_get (ast.FieldLocs o) name) as [start|] eqn:Hg;
    [|discriminate].
  destruct (ast.FunBody fn); try discriminate;
    (destruct (ast.Loc _); [|discriminate];
     destruct (negb _); [auto|];
     destruct (token.requiredParamAt _ _ _) as [[[pid paramLoc]|]|e|m];
     try discriminate; [|apply overFieldBody_Return];
     intros H; inversion H; subst op; right; left;
     exists name, start; split; [apply FieldLocs_get_In, Hg | reflexivity]).
Qed.

Lemma fieldByName_finds om o f l name :
  covered om o -> In f (ast.Fields o) -> ast.Name f = ast.LiteralString l name ->
  token.fieldByName o name = Return f.
Proof.
  intros Hc Hin Hname. inversion Hc as [o' _ Hstr Hsame _]; subst o'.
  unfold token.fieldByName.
  pose proof (fieldByName_loop_spec name (ast.Fields o)) as H.
  destruct (token.fieldByName_loop (ast.Fields o) name) as [g|e|m].
  - destruct H as (pre & rest & Heq & Hg & _). f_equal.
    apply (Hsame g f name); [rewrite Heq; apply in_or_app; right; left; reflexivity
                            | exact Hin | exact Hg | exists l; exact Hname].
  - exfalso. destruct H as [[_ Hall]|[_ (pre & g & rest & Heq & Hg & _)]].
    + rewrite Forall_forall in Hall. apply list_elem_of_In in Hin.
      destruct (Hall f Hin) as (l' & other & Ho & Hne).
      rewrite Hname in Ho. inversion Ho. congruence.
    + destruct (Hstr g) as (l' & n' & Hn' & _);
        [rewrite Heq; apply in_or_app; right; left; reflexivity|].
      exact (Hg l' n' Hn').
  - destruct H.
Qed.

Lemma indexed_single om o name :
  is_Some (om !! (ast.Ptr o, name)) ->
  exists loc, token.lookup om o [name] = Return loc.
Proof. intros [lr H]. rewrite lookup_single, H. eauto. Qed.

(** When the index covers the object, the path that pathToLocation returns
    for a position is a path that lookup resolves: the two functions agree on
    which field a path segment names. *)
Theorem pathToLocation_then_lookup :
  forall (om : token.objectMapper) (o : ast.DesugaredObjectT)
         (pos : jpos.Position) (op : token.objectPath),
    covered om o ->
    token.pathToLocation o pos = Return op ->
    exists loc, token.lookup om o (token.opPath op) = Return loc.
Proof.
  intros om o pos op Hc. revert op.
  induction Hc as [o Hkeys Hfields Hsame Hnested IH]; intros op H.
  assert (Hcov : covered om o) by (constructor; assumption).
  destruct o as [ptr l fields fl]. cbn [token.pathToLocation] in H.
  set (o := ast.mkDesugaredObject ptr l fields fl) in *.
  destruct (token.fieldNameAt o pos) as [[name r] [e|]] eqn:Hat.
  - cbn [ast.Fields] in H.
    assert (Hloop : forall fs, (forall f, In f fs -> In f fields) ->
              token.overFields (fun n => token.pathToLocation n pos) o pos fs = Return op ->
              exists loc, token.lookup om o (token.opPath op) = Return loc).
    { clear H. induction fs as [|f fs IHfs]; intros Hsub Hres; [discriminate Hres|].
      cbn [token.overFields] in Hres.
      destruct (overField_Return _ _ _ _ _ _ Hres)
        as [Hnext|[(name' & loc & Hin & ->)
                  |(l1 & name' & l2 & binds & n & op' & Hname & Hbody & Hself & ->)]].
      - apply IHfs; [intros g Hg; apply Hsub; right; exact Hg | exact Hnext].
      - apply indexed_single. exact (Hkeys name' loc Hin).
      - assert (Hf : In f fields) by (apply Hsub; left; reflexivity).
        destruct (IH f l2 binds n Hf Hbody op' Hself) as [loc Hloc].
        destruct (token.opPath op') as [|next rest] eqn:Hp;
          [simpl in Hloc; discriminate Hloc|].
        exists loc. rewrite lookup_step.
        destruct (Hfields f Hf) as (l' & name'' & Hname' & [lr Hlr]).
        rewrite Hname in Hname'. inversion Hname'; subst name'' l'.
        rewrite Hlr, (fieldByName_finds om o f l1 name' Hcov Hf Hname), Hbody.
        exact Hloc. }
    exact (Hloop fields (fun f Hf => Hf) H).
  - inversion H; subst op. cbn [token.opPath].
    destruct (proj2 (fieldNameAt_loop_sound (ast.FieldLocs o) pos) name r Hat)
      as (loc & Hin & _).
    apply indexed_single. exact (Hkeys name loc Hin).
Qed.

Lemma path_test_covered : covered path_test_mapper path_test_object.
Proof.
  assert (Hn : covered path_test_mapper path_test_nested).
  { constructor.
    - intros name loc [Heq|[]]. inversion Heq; subst. vm_compute. eauto.
    - intros f [<-|[]]. exists None, "b". split; [reflexivity|]. vm_compute. eauto.
    - intros f g name [<-|[]] [<-|[]] _ _. reflexivity.
    - intros f l binds n [<-|[]] Hb. discriminate Hb. }
  constructor.
  - intros name loc [Heq|[]]. inversion Heq; subst. vm_compute. eauto.
  - intros f [<-|[]]. exists None, "a". split; [reflexivity|]. vm_compute. eauto.
  - intros f g name [<-|[]] [<-|[]] _ _. reflexivity.
  - intros f l binds n [<-|[]] Hb. inversion Hb; subst. exact Hn.
Defined.

Lemma pathToLocation_then_lookup_witness :
  exists loc, token.lookup path_test_mapper path_test_object ["a"; "b"] = Return loc.
Proof.
  exact (pathToLocation_then_lookup path_test_mapper path_test_object (jpos.New 1 5)
           (token.mkObjectPath ["a"; "b"] (jpos.NewRangeFromCoords 1 5 1 6) ast.Nil None)
           path_test_covered eq_refl).
Defined.
